(** * 3D Submarines: shape library, vessels, board placement and the match loop

    A shallow embedding of [main.py].  Python integers are [Z], Python sets
    are [gset], the [occupied] dictionary is a [gmap], lists are lists.
    Exceptions are values of [exn]; a method that mutates its receiver
    returns the receiver's new state, also when it raises. *)

From stdpp Require Import gmap list.

Local Open Scope Z_scope.
Set Warnings "-clear-no-such-hyp".

(** ** Helper functions *)

(** [min(xs)] and [max(xs)] on a list of integers; [None] stands for the
    [ValueError] Python raises on an empty sequence. *)
Definition py_min (xs : list Z) : option Z :=
  match xs with
  | [] => None
  | x :: xs' => Some (foldl Z.min x xs')
  end.

Definition py_max (xs : list Z) : option Z :=
  match xs with
  | [] => None
  | x :: xs' => Some (foldl Z.max x xs')
  end.

(** [_normalize(offsets)]: shift the offsets so that the minimum x and the
    minimum y become 0; the result is a set. *)
Definition _normalize (offsets : list (Z * Z)) : option (gset (Z * Z)) :=
  let xs := map fst offsets in
  let ys := map snd offsets in
  min_x ← py_min xs;
  min_y ← py_min ys;
  Some (list_to_set (map (λ '(x, y), (x - min_x, y - min_y)) offsets)).

(** The list comprehension [[(y, -x) for x,y in current]]. *)
Definition rot90 (current : list (Z * Z)) : list (Z * Z) :=
  map (λ '(x, y), (y, - x)) current.

(** [if norm not in configs: configs.append(norm)]. *)
Definition append_if_new (configs : list (gset (Z * Z))) (norm : gset (Z * Z))
  : list (gset (Z * Z)) :=
  if decide (norm ∈ configs) then configs else configs ++ [norm].

(** The body of [for _ in range(4)] in [_get_rotations], run [n] times from
    the loop state [(configs, current)]. *)
Fixpoint rotations_loop (n : nat) (configs : list (gset (Z * Z)))
    (current : list (Z * Z)) : option (list (gset (Z * Z))) :=
  match n with
  | O => Some configs
  | S n' =>
      norm ← _normalize current;
      rotations_loop n' (append_if_new configs norm) (rot90 current)
  end.

Definition _get_rotations (base : list (Z * Z)) : option (list (gset (Z * Z))) :=
  rotations_loop 4 [] base.

(** ** Enumerations *)

Inductive Signal := MISS | HIT | KILL.

Inductive PieceType := SUBMARINE | DESTROYER | JET | GENERAL.

#[global] Instance Signal_eq_dec : EqDecision Signal.
Proof. solve_decision. Defined.

#[global] Instance PieceType_eq_dec : EqDecision PieceType.
Proof. solve_decision. Defined.

(** [ptype.value]: [auto()] numbers the members from 1 in declaration order. *)
Definition value (ptype : PieceType) : Z :=
  match ptype with
  | SUBMARINE => 1
  | DESTROYER => 2
  | JET => 3
  | GENERAL => 4
  end.

(** The base offsets handed to [_get_rotations] in [_SHAPES_2D]. *)
Definition base_offsets (ptype : PieceType) : list (Z * Z) :=
  match ptype with
  | SUBMARINE => [(0, 0); (1, 0); (2, 0)]
  | DESTROYER => [(0, 0); (1, 0); (2, 0); (3, 0)]
  | JET => [(-1, 0); (0, 0); (1, 0); (0, -1); (0, 1); (0, 2)]
  | GENERAL => [(0, 0)]
  end.

(** [_SHAPES_2D], built when the module is loaded.  The computations do not
    raise on these bases (see [_SHAPES_2D_built]), so [default] is never
    taken. *)
Definition _SHAPES_2D (ptype : PieceType) : list (gset (Z * Z)) :=
  match ptype with
  | GENERAL => default [] (norm ← _normalize (base_offsets GENERAL); Some [norm])
  | _ => default [] (_get_rotations (base_offsets ptype))
  end.

(** ** Vessels *)

(** A 3D coordinate [(x, y, depth)]. *)
Abbreviation Coordinate := (Z * Z * Z)%type.

(** The dataclass [Piece]. *)
Record Piece := mkPiece {
  piece_type : PieceType;
  coords : gset Coordinate;
  hits : gset Coordinate
}.

#[global] Instance Piece_eq_dec : EqDecision Piece.
Proof. solve_decision. Defined.

(** [Piece.register_hit]: the signal and the piece after the call. *)
Definition register_hit (self : Piece) (coord : Coordinate) : Signal * Piece :=
  if decide (coord ∉ coords self) then (MISS, self)
  else
    let self' := mkPiece (piece_type self) (coords self) (hits self ∪ {[coord]}) in
    if decide (piece_type self ∈ [SUBMARINE; JET; GENERAL]) then (KILL, self')
    else if decide (hits self' = coords self') then (KILL, self')
    else (HIT, self').

(** ** Exceptions and the random source *)

Inductive value_error :=
| ExactlyOneGeneral                                   (* "Exactly one General required" *)
| CannotPlace (ptype : PieceType) (num max_count : Z) (* "Cannot place {num} ... maximum is {max_count}" *)
| EmptyRange                                          (* random.randrange on an empty range *)
| EmptySequence.                                      (* min() or max() of an empty sequence *)

Inductive exn :=
| ValueError (why : value_error)
| RuntimeError (ptype : PieceType)                    (* "Cannot place piece {ptype}" *)
| IndexError.                                         (* indexing or random.choice on an empty list *)

(** The spec's names for the three errors of the placement engine. *)
Abbreviation InvalidConfiguration := (ValueError ExactlyOneGeneral).
Abbreviation CapacityExceeded ptype num max_count := (ValueError (CannotPlace ptype num max_count)).
Abbreviation PlacementExhausted ptype := (RuntimeError ptype).

(** The module [random]: an unbounded supply of draws and the number of
    draws consumed so far. *)
Record Random := mkRandom { draws : nat → nat; used : nat }.

Definition next_draw (g : Random) : nat * Random :=
  (draws g (used g), mkRandom (draws g) (S (used g))).

(** Computations that may raise and that thread a state [St]; the state
    survives an exception, as mutation does in Python. *)
Definition M (St A : Type) : Type := St → (exn + A) * St.

Definition ret {St A} (a : A) : M St A := λ s, (inr a, s).
Definition raise {St A} (e : exn) : M St A := λ s, (inl e, s).
Definition bind {St A B} (m : M St A) (k : A → M St B) : M St B :=
  λ s, match m s with
       | (inl e, s') => (inl e, s')
       | (inr a, s') => k a s'
       end.

Notation "'let*' x ':=' m 'in' k" := (bind m (λ x, k))
  (at level 10, x pattern, m at level 100, k at level 200).

(** [random.randrange(n)]. *)
Definition randrange (n : Z) : M Random Z :=
  λ g, if decide (n ≤ 0) then (inl (ValueError EmptyRange), g)
       else let '(r, g') := next_draw g in (inr (Z.of_nat r `mod` n), g').

(** [random.choice(seq)]. *)
Definition choice {A} (seq : list A) : M Random A :=
  λ g, match seq with
       | [] => (inl IndexError, g)
       | d :: _ =>
           let '(r, g') := next_draw g in
           (inr (nth (r `mod` length seq)%nat seq d), g')
       end.

(** The result of [min]/[max] inside a stateful computation. *)
Definition of_option {St A} (e : exn) (o : option A) : M St A :=
  match o with
  | Some a => ret a
  | None => raise e
  end.

(** ** The board *)

(** [Board3D].  [pieces] holds the vessels in placement order; [occupied]
    refers to a vessel by its position in [pieces], so that a hit recorded
    through [occupied] is a hit on the vessel [pieces] holds: in Python both
    hold the same object. *)
Record Board3D := mkBoard {
  depth : Z;
  rows : Z;
  cols : Z;
  occupied : gmap Coordinate nat;
  pieces : list Piece
}.

(** [Board3D.__init__]. *)
Definition Board3D_init (depth rows cols : Z) : Board3D :=
  mkBoard depth rows cols ∅ [].

(** A placement runs on the board and the random source together. *)
Definition lift_random {A} (m : M Random A) : M (Board3D * Random) A :=
  λ '(b, g), let '(r, g') := m g in (r, (b, g')).

Definition get_board : M (Board3D * Random) Board3D := λ '(b, g), (inr b, (b, g)).
Definition put_board (b : Board3D) : M (Board3D * Random) unit := λ '(_, g), (inr (), (b, g)).

(** [{(x0 + x, y0 + y, z) for x,y in shape}]. *)
Definition absolute_coords (x0 y0 z : Z) (shape : gset (Z * Z)) : gset Coordinate :=
  set_map (λ '(x, y), (x0 + x, y0 + y, z)) shape.

(** [for c in coords: self.occupied[c] = piece], with [piece] the vessel at
    position [i] of [pieces]. *)
Definition register_coords (i : nat) (coords : gset Coordinate)
    (occupied : gmap Coordinate nat) : gmap Coordinate nat :=
  foldl (λ occ c, <[c := i]> occ) occupied (elements coords).

(** [any(c in self.occupied for c in coords)]. *)
Definition any_occupied (occupied : gmap Coordinate nat) (coords : gset Coordinate) : bool :=
  existsb (λ c, bool_decide (is_Some (occupied !! c))) (elements coords).

(** The successful tail of one attempt of [_place_random]: create the piece,
    index its coordinates, append it. *)
Definition commit (ptype : PieceType) (coords : gset Coordinate) (self : Board3D) : Board3D :=
  let piece := mkPiece ptype coords ∅ in
  mkBoard (depth self) (rows self) (cols self)
          (register_coords (length (pieces self)) coords (occupied self))
          (pieces self ++ [piece]).

(** [Board3D._place_random]: the loop [for _ in range(1000)] with [n]
    iterations left, then the [raise RuntimeError]. *)
Fixpoint place_attempts (n : nat) (ptype : PieceType) : M (Board3D * Random) unit :=
  match n with
  | O => raise (RuntimeError ptype)
  | S n' =>
      let shapes := _SHAPES_2D ptype in
      let* shape := lift_random (choice shapes) in
      let* max_dx := of_option (ValueError EmptySequence) (py_max (map fst (elements shape))) in
      let* max_dy := of_option (ValueError EmptySequence) (py_max (map snd (elements shape))) in
      let* self := get_board in
      let* z := (if decide (ptype = GENERAL) then lift_random (randrange (depth self))
                 else ret (value ptype - 1)) in
      let* x0 := lift_random (randrange (cols self - max_dx)) in
      let* y0 := lift_random (randrange (rows self - max_dy)) in
      let coords := absolute_coords x0 y0 z shape in
      if any_occupied (occupied self) coords then place_attempts n' ptype
      else put_board (commit ptype coords self)
  end.

Definition _place_random (ptype : PieceType) : M (Board3D * Random) unit :=
  place_attempts 1000 ptype.

(** [counts.get(ptype, default)] on the dictionary [counts], kept as its
    items in insertion order. *)
Fixpoint counts_get (counts : list (PieceType * Z)) (ptype : PieceType) (default : Z) : Z :=
  match counts with
  | [] => default
  | (k, v) :: rest => if decide (k = ptype) then v else counts_get rest ptype default
  end.

(** The packing bound [max_count] that [place_all] computes for [ptype]. *)
Definition max_count (self : Board3D) (ptype : PieceType) : exn + Z :=
  match _SHAPES_2D ptype with
  | [] => inl IndexError
  | base_shape :: _ =>
      let xs := map fst (elements base_shape) in
      let ys := map snd (elements base_shape) in
      match py_max xs, py_min xs, py_max ys, py_min ys with
      | Some max_x, Some min_x, Some max_y, Some min_y =>
          let width := max_x - min_x + 1 in
          let height := max_y - min_y + 1 in
          let cap_horiz := (rows self / height) * (cols self / width) in
          let cap_vert := (rows self / width) * (cols self / height) in
          inr (cap_horiz `max` cap_vert)
      | _, _, _, _ => inl (ValueError EmptySequence)
      end
  end.

(** The first loop of [place_all] over [counts.items()]. *)
Fixpoint check_counts (self : Board3D) (items : list (PieceType * Z)) : exn + unit :=
  match items with
  | [] => inr ()
  | (ptype, num) :: rest =>
      if decide (ptype = GENERAL) then check_counts self rest
      else
        match max_count self ptype with
        | inl e => inl e
        | inr max_count =>
            if decide (num > max_count)
            then inl (ValueError (CannotPlace ptype num max_count))
            else check_counts self rest
        end
  end.

(** [for _ in range(num): self._place_random(ptype)], with [n] iterations left. *)
Fixpoint place_times (n : nat) (ptype : PieceType) : M (Board3D * Random) unit :=
  match n with
  | O => ret ()
  | S n' => let* _ := _place_random ptype in place_times n' ptype
  end.

(** The second loop of [place_all] over [counts.items()]. *)
Fixpoint place_items (items : list (PieceType * Z)) : M (Board3D * Random) unit :=
  match items with
  | [] => ret ()
  | (ptype, num) :: rest =>
      let* _ := place_times (Z.to_nat num) ptype in place_items rest
  end.

(** [Board3D.place_all]. *)
Definition place_all (counts : list (PieceType * Z)) : M (Board3D * Random) unit :=
  if decide (counts_get counts GENERAL 0 ≠ 1) then raise (ValueError ExactlyOneGeneral)
  else
    let* self := get_board in
    match check_counts self counts with
    | inl e => raise e
    | inr _ => place_items counts
    end.

(** [Board3D.receive_fire].  A position of [occupied] outside [pieces] has no
    counterpart in Python; placement never produces one ([wf_board]). *)
Definition receive_fire (self : Board3D) (coord : Coordinate) : Signal * Board3D :=
  match occupied self !! coord with
  | None => (MISS, self)
  | Some i =>
      match pieces self !! i with
      | None => (MISS, self)
      | Some piece =>
          let '(sig, piece') := register_hit piece coord in
          (sig, mkBoard (depth self) (rows self) (cols self) (occupied self)
                        (<[i := piece']> (pieces self)))
      end
  end.

(** [self.occupied.get(coord)]: the vessel the index refers to, if any. *)
Definition occupied_get (self : Board3D) (coord : Coordinate) : option Piece :=
  i ← occupied self !! coord; pieces self !! i.

(** [Board3D.all_non_general_sunk]. *)
Definition all_non_general_sunk (self : Board3D) : bool :=
  forallb (λ p, bool_decide (piece_type p = GENERAL) || bool_decide (hits p = coords p))
          (pieces self).

(** ** The match *)

(** [self.current]: [Player0] is index 0 ("Player 1" on screen), [Player1]
    is index 1. *)
Inductive Player := Player0 | Player1.

#[global] Instance Player_eq_dec : EqDecision Player.
Proof. solve_decision. Defined.

(** [1 - self.current]. *)
Definition other (p : Player) : Player :=
  match p with
  | Player0 => Player1
  | Player1 => Player0
  end.

(** [Game]: [boards] and [shots] are the two-element lists of the class. *)
Record Game := mkGame {
  boards : Board3D * Board3D;
  shots : gset Coordinate * gset Coordinate;
  current : Player
}.

(** [seq[p]] and [seq[p] = v] on a two-element list. *)
Definition at_player {A} (seq : A * A) (p : Player) : A :=
  match p with
  | Player0 => fst seq
  | Player1 => snd seq
  end.

Definition set_player {A} (seq : A * A) (p : Player) (v : A) : A * A :=
  match p with
  | Player0 => (v, snd seq)
  | Player1 => (fst seq, v)
  end.

(** [Game.__init__]: both boards are placed with the same counts, one after
    the other, from the same random source. *)
Definition Game_init (depth rows cols : Z) (counts : list (PieceType * Z))
    (g : Random) : (exn + Game) * Random :=
  match place_all counts (Board3D_init depth rows cols, g) with
  | (inl e, (_, g1)) => (inl e, g1)
  | (inr _, (b0, g1)) =>
      match place_all counts (Board3D_init depth rows cols, g1) with
      | (inl e, (_, g2)) => (inl e, g2)
      | (inr _, (b1, g2)) => (inr (mkGame (b0, b1) (∅, ∅) Player0), g2)
      end
  end.

(** [range(n)]. *)
Definition range (n : Z) : list Z := map Z.of_nat (seq 0 (Z.to_nat n)).

(** The cells [_print_view] visits, in its order: levels, then rows, then
    columns of [self.boards[0]]. *)
Definition view_cells (self : Game) : list Coordinate :=
  let b0 := at_player (boards self) Player0 in
  z ← range (depth b0); y ← range (rows b0); x ← range (cols b0); [(x, y, z)].

(** One cell of [_print_view]: a fired cell is resolved again on the
    opponent's board, an unfired cell shows ['.'] ([None]). *)
Definition view_cell (self : Game) (coord : Coordinate) : option Signal * Game :=
  let opp := other (current self) in
  if decide (coord ∈ at_player (shots self) (current self)) then
    let '(sig, b) := receive_fire (at_player (boards self) opp) coord in
    (Some sig, mkGame (set_player (boards self) opp b) (shots self) (current self))
  else (None, self).

(** [Game._print_view]: the characters shown, as signals, and the match
    after the calls of [receive_fire]. *)
Definition _print_view (self : Game) : list (option Signal) * Game :=
  foldl (λ '(shown, g) coord, let '(s, g') := view_cell g coord in (shown ++ [s], g'))
        ([], self) (view_cells self).

(** What a line read by [input] amounts to: ['quit'], ['show'], a line that
    does not parse, or a parsed ["z,y,x"] turned into [(x, y, z)]. *)
Inductive Command :=
| Quit
| Show
| Malformed
| Shot (coord : Coordinate).

(** How an iteration of the loop of [Game.start] leaves the match. *)
Inductive Status :=
| InProgress                 (* the loop goes on *)
| Aborted                    (* "Game aborted." *)
| Won (winner : Player).     (* "Player ... wins" *)

(** [piece and piece.piece_type == PieceType.GENERAL], for [piece] the result
    of [occupied.get]. *)
Definition is_general (piece : option Piece) : bool :=
  match piece with
  | None => false
  | Some p => bool_decide (piece_type p = GENERAL)
  end.

(** The body of the loop of [Game.start] from the test [coord in
    self.shots[self.current]] on: the fire action. *)
Definition fire (self : Game) (coord : Coordinate) : Status * Game :=
  if decide (coord ∈ at_player (shots self) (current self)) then (InProgress, self)
  else
    let shots' := set_player (shots self) (current self)
                    (at_player (shots self) (current self) ∪ {[coord]}) in
    let target_board := at_player (boards self) (other (current self)) in
    let piece := occupied_get target_board coord in
    let '(sig, target_board') := receive_fire target_board coord in
    let boards' := set_player (boards self) (other (current self)) target_board' in
    if decide (sig = MISS) then (InProgress, mkGame boards' shots' (other (current self)))
    else
      let self' := mkGame boards' shots' (current self) in
      if is_general piece then (Won (current self), self')
      else if all_non_general_sunk target_board' then (Won (current self), self')
      else (InProgress, self').

(** The body of the loop after [_print_view], for the line read. *)
Definition turn (self : Game) (cmd : Command) : Status * Game :=
  match cmd with
  | Quit => (Aborted, self)
  | Show => (InProgress, self)
  | Malformed => (InProgress, self)
  | Shot coord => fire self coord
  end.

(** [Game.start] on the lines [inputs]; with no line left the match waits in
    [input]. *)
Fixpoint start (self : Game) (inputs : list Command) : Status * Game :=
  let self1 := snd (_print_view self) in
  match inputs with
  | [] => (InProgress, self1)
  | cmd :: rest =>
      match turn self1 cmd with
      | (InProgress, self2) => start self2 rest
      | stopped => stopped
      end
  end.

(** ** Predicates used in the statements *)

(** What [_normalize] returns, as a relation between the input and the
    result: the two minima exist and the result holds the shifted offsets. *)
Definition normal_form (l : list (Z * Z)) (V : gset (Z * Z)) : Prop :=
  ∃ min_x min_y,
    (min_x ∈ map fst l ∧ ∀ x, x ∈ map fst l → min_x ≤ x) ∧
    (min_y ∈ map snd l ∧ ∀ y, y ∈ map snd l → min_y ≤ y) ∧
    ∀ x y, (x, y) ∈ V ↔ (x + min_x, y + min_y) ∈ l.

(** [l2] holds the offsets of [l1] moved by [(dx, dy)], as sets. *)
Definition translate_of (l1 l2 : list (Z * Z)) (dx dy : Z) : Prop :=
  ∀ x y, (x, y) ∈ l2 ↔ (x - dx, y - dy) ∈ l1.

(** The number of cells of each type's shape. *)
Definition shape_size (ptype : PieceType) : nat :=
  match ptype with
  | SUBMARINE => 3
  | DESTROYER => 4
  | JET => 6
  | GENERAL => 1
  end.

(** Width and height of the bounding box of each type's base shape. *)
Definition base_box (ptype : PieceType) : Z * Z :=
  match ptype with
  | SUBMARINE => (3, 1)
  | DESTROYER => (4, 1)
  | JET => (3, 4)
  | GENERAL => (1, 1)
  end.

(** The packing bound of [place_all] as the spec words it:
    max(floor(rows/height)*floor(cols/width), floor(rows/width)*floor(cols/height)). *)
Definition capacity (rows cols : Z) (ptype : PieceType) : Z :=
  let '(width, height) := base_box ptype in
  (rows / height * (cols / width)) `max` (rows / width * (cols / height)).

(** A shape variant of [n] cells whose minimum x and minimum y are 0. *)
Definition shape_check (n : nat) (shape : gset (Z * Z)) : bool :=
  bool_decide (size shape = n) &&
  bool_decide (py_min (map fst (elements shape)) = Some 0) &&
  bool_decide (py_min (map snd (elements shape)) = Some 0).

(** The board's two containers agree: [occupied] maps a coordinate to a
    vessel exactly when that vessel of [pieces] occupies it, and hits lie on
    occupied cells. *)
Definition wf_board (b : Board3D) : Prop :=
  (∀ c i, occupied b !! c = Some i ↔ ∃ p, pieces b !! i = Some p ∧ c ∈ coords p) ∧
  (∀ p, p ∈ pieces b → hits p ⊆ coords p).

(** A vessel as [_place_random] builds it on a [depth] x [rows] x [cols]
    board: a variant of its type moved to an anchor, on the type's layer. *)
Definition well_placed (depth rows cols : Z) (p : Piece) : Prop :=
  ∃ shape x0 y0 z,
    shape ∈ _SHAPES_2D (piece_type p) ∧
    coords p = absolute_coords x0 y0 z shape ∧
    (∀ x y, (x, y) ∈ shape → 0 ≤ x0 + x < cols ∧ 0 ≤ y0 + y < rows) ∧
    (if decide (piece_type p = GENERAL) then 0 ≤ z < depth else z = value (piece_type p) - 1).

(** What a placement pass maintains. *)
Definition placement_inv (b : Board3D) : Prop :=
  wf_board b ∧ ∀ p, p ∈ pieces b → well_placed (depth b) (rows b) (cols b) p.

(** A sequence of calls of [receive_fire]. *)
Definition fire_all (b : Board3D) (cs : list Coordinate) : Board3D :=
  foldl (λ b c, (receive_fire b c).2) b cs.

(** A random source that returns the draws of [l], then zeros. *)
Definition tape (l : list nat) : Random := mkRandom (λ n, nth n l 0%nat) 0.

(** What a successful attempt of [_place_random] has drawn on board [b]: a
    variant, an anchor that keeps its bounding box on the layer, the layer
    [z], and the cells [cs], all free. *)
Definition placed_by (ptype : PieceType) (b : Board3D) (cs : gset Coordinate) (z : Z) : Prop :=
  ∃ shape max_dx max_dy x0 y0,
    shape ∈ _SHAPES_2D ptype ∧
    py_max (map fst (elements shape)) = Some max_dx ∧
    py_max (map snd (elements shape)) = Some max_dy ∧
    0 ≤ x0 < cols b - max_dx ∧ 0 ≤ y0 < rows b - max_dy ∧
    (if decide (ptype = GENERAL) then 0 ≤ z < depth b else z = value ptype - 1) ∧
    cs = absolute_coords x0 y0 z shape ∧
    (∀ c, c ∈ cs → occupied b !! c = None).

(** Placement never changes the dimensions of the board. *)
Definition same_dims (b b' : Board3D) : Prop :=
  depth b' = depth b ∧ rows b' = rows b ∧ cols b' = cols b.

(** How the placement loops can end: normally, with the attempts of one
    vessel used up, or with an empty range handed to [randrange]. *)
Definition placement_result (r : exn + unit) : Prop :=
  r = inr () ∨ (∃ ptype, r = inl (RuntimeError ptype)) ∨ r = inl (ValueError EmptyRange).

(** A board as [place_all] leaves it when it returns normally on a fresh
    board. *)
Definition placed (b : Board3D) : Prop :=
  ∃ d rs cs counts g g',
    place_all counts (Board3D_init d rs cs, g) = (inr (), (b, g')).

(** A board reachable after placement: placed, then fired at any number of
    times. *)
Definition reachable (b : Board3D) : Prop :=
  ∃ b0 fired, placed b0 ∧ b = fire_all b0 fired.

(** [b'] is [b] after some hits: same dimensions, same index, the same
    vessels on the same cells, and no hit forgotten. *)
Definition evolves (b b' : Board3D) : Prop :=
  same_dims b b' ∧ occupied b' = occupied b ∧
  length (pieces b') = length (pieces b) ∧
  ∀ i p, pieces b !! i = Some p →
         ∃ p', pieces b' !! i = Some p' ∧ piece_type p' = piece_type p ∧
               coords p' = coords p ∧ hits p ⊆ hits p'.

(** The hit at [c] is on record: the vessel that occupies [c], if any, has
    [c] among its hits. *)
Definition recorded (c : Coordinate) (b : Board3D) : Prop :=
  ∀ p, occupied_get b c = Some p → c ∈ hits p.

(** The types that [register_hit] kills at the first hit. *)
Definition single_hit_kill (ptype : PieceType) : bool :=
  bool_decide (ptype ∈ [SUBMARINE; JET; GENERAL]).

(** A destroyed vessel in the words of the spec's data model: all its cells
    are hit, or it is of a single-hit-kill type and has been hit. *)
Definition destroyed (p : Piece) : bool :=
  bool_decide (hits p = coords p) || (single_hit_kill (piece_type p) && bool_decide (hits p ≠ ∅)).

(** ** Example inputs *)

(** One vessel of each type, as in the repository's test script, on the
    5 x 5 x 3 board; the draws put every vessel at its first variant and at
    the origin of its layer, and the General at (4, 4) of layer 0. *)
Definition demo_counts : list (PieceType * Z) :=
  [(SUBMARINE, 1); (DESTROYER, 1); (JET, 1); (GENERAL, 1)].

Definition demo_run : (exn + unit) * (Board3D * Random) :=
  place_all demo_counts (Board3D_init 3 5 5, tape [0; 0; 0; 0; 0; 0; 0; 0; 0; 0; 0; 4; 4]%nat).

Definition demo_board : Board3D := demo_run.2.1.

(** The Destroyer of [demo_board]. *)
Definition demo_destroyer : Piece :=
  mkPiece DESTROYER (list_to_set [(0, 0, 1); (1, 0, 1); (2, 0, 1); (3, 0, 1)]) ∅.


(** A board of a single layer that is asked for a Destroyer. *)
Definition shallow_run : (exn + unit) * (Board3D * Random) :=
  place_all [(DESTROYER, 1); (GENERAL, 1)] (Board3D_init 1 5 5, tape [0; 0; 0; 0; 0; 4; 4]%nat).

(** The smallest board the configuration dialogue accepts, 3 rows by 4
    columns, asked for a Destroyer; the first draw picks the vertical
    variant. *)
Definition narrow_counts : list (PieceType * Z) := [(DESTROYER, 1); (GENERAL, 1)].

Definition narrow_run : (exn + unit) * (Board3D * Random) :=
  place_all narrow_counts (Board3D_init 3 3 4, tape [1]%nat).

(** A board with one Submarine at (0..2, 0, 0) and the General at (4, 4, 0). *)
Definition sub_run : (exn + unit) * (Board3D * Random) :=
  place_all [(SUBMARINE, 1); (GENERAL, 1)] (Board3D_init 3 5 5, tape [0; 0; 0; 0; 0; 4; 4]%nat).

Definition sub_board : Board3D := sub_run.2.1.

(** What the match maintains: both boards are well formed, and every shot a
    player has fired is on record on the opponent's board. *)
Definition game_inv (self : Game) : Prop :=
  ∀ pl, wf_board (at_player (boards self) (other pl)) ∧
        ∀ c, c ∈ at_player (shots self) pl → recorded c (at_player (boards self) (other pl)).

(** ** More of the program *)

(** The moving of every offset by [(dx, dy)]. *)
Definition shift (dx dy : Z) (offsets : list (Z * Z)) : list (Z * Z) :=
  map (λ '(x, y), (x + dx, y + dy)) offsets.

(** The vessels a placement pass is asked for, in the order in which
    [place_all] goes through [counts.items()]. *)
Definition fleet (counts : list (PieceType * Z)) : list PieceType :=
  counts ≫= λ '(ptype, num), replicate (Z.to_nat num) ptype.

(** The side of the smallest square layer that holds every variant of a
    type: the longer side of its bounding box. *)
Definition longest_side (ptype : PieceType) : Z :=
  match ptype with
  | SUBMARINE => 3
  | DESTROYER => 4
  | JET => 4
  | GENERAL => 1
  end.

(** Both extents of a variant lie below [n]. *)
Definition shape_within (n : Z) (shape : gset (Z * Z)) : bool :=
  forallb (λ '(x, y), bool_decide (x < n) && bool_decide (y < n)) (elements shape).

(** The signals of a sequence of calls of [receive_fire], in order. *)
Fixpoint fire_signals (b : Board3D) (cs : list Coordinate) : list Signal :=
  match cs with
  | [] => []
  | c :: cs' => (receive_fire b c).1 :: fire_signals (receive_fire b c).2 cs'
  end.

(** The match [Game(3, 5, 5, demo_counts)] when both boards draw as
    [demo_run] does. *)
Definition demo_game_draws : list nat :=
  [0; 0; 0; 0; 0; 0; 0; 0; 0; 0; 0; 4; 4; 0; 0; 0; 0; 0; 0; 0; 0; 0; 0; 0; 4; 4]%nat.

Definition demo_game : Game := mkGame (demo_board, demo_board) (∅, ∅) Player0.

(** That match after player 0 has fired at [(0, 0, 0)], a cell of the
    Submarine, and at [(0, 0, 1)], a cell of the Destroyer; both shots hit,
    so player 0 is still to move. *)
Definition demo_game_fired : Game :=
  (fire (fire demo_game (0, 0, 0)).2 (0, 0, 1)).2.

(** The General of a board has been hit. *)
Definition general_hit (b : Board3D) : Prop :=
  ∃ p, p ∈ pieces b ∧ piece_type p = GENERAL ∧ hits p ≠ ∅.

(** [Game._reveal_board]: the lines printed for each level, as the marks of
    their cells, [true] for ['#'] and [false] for ['.']. *)
Definition _reveal_board (self : Game) (player : Player) : list (list (list bool)) :=
  let board := at_player (boards self) player in
  map (λ z,
         map (λ y,
                map (λ x, bool_decide (is_Some (occupied board !! (x, y, z))))
                    (range (cols board)))
             (range (rows board)))
      (range (depth board)).

(** The number of ['#'] in a reveal. *)
Definition marks (grid : list (list (list bool))) : nat :=
  length (filter (λ m, m = true) (concat (concat grid))).

(** The cells of a [depth] x [rows] x [cols] board, level by level, row by
    row. *)
Definition grid_cells (depth rows cols : Z) : list Coordinate :=
  z ← range depth; y ← range rows; x ← range cols; [(x, y, z)].

(** ** The configuration dialogue: [run_game] *)

(** What a line read by [input] amounts to at the prompts of the program. *)
Inductive Line :=
| IntLine (n : Z)          (* a line that [int] turns into [n] *)
| ShotLine (z y x : Z)     (* three integers separated by commas, "z,y,x" *)
| StartLine                (* 'start', 'reset', 'quit', 'show' after strip and lower *)
| ResetLine
| QuitLine
| ShowLine
| OtherLine.               (* any other line *)

(** [int(input(...))]: [None] stands for its [ValueError]. *)
Definition as_int (line : Line) : option Z :=
  match line with
  | IntLine n => Some n
  | _ => None
  end.

(** The line as [Game.start] reads it. *)
Definition as_command (line : Line) : Command :=
  match line with
  | QuitLine => Quit
  | ShowLine => Show
  | ShotLine z y x => Shot (x, y, z)
  | _ => Malformed
  end.

(** How [run_game] returns. *)
Inductive Exit :=
| SetupAborted                                   (* 'quit' at the last prompt of the set-up *)
| GameReturned (status : Status) (game : Game)   (* [game.start()] has returned *)
| Uncaught (e : exn).                            (* [Game(...)] raised: nothing catches it *)

(** Where [run_game] is waiting for its next line, or how it has returned.
    [AskCount] holds the counts entered so far, the type asked for and the
    types still to come; [Playing] holds the match at the prompt of
    [start], after the view has been printed. *)
Inductive Session :=
| AskRows
| AskCols (rows : Z)
| AskCount (rows cols : Z) (counts : list (PieceType * Z)) (ptype : PieceType)
           (todo : list PieceType)
| AskCommand (rows cols : Z) (counts : list (PieceType * Z))
| Playing (game : Game)
| Returned (how : Exit).

(** What [run_game] does with one line. *)
Definition step (s : Session * Random) (line : Line) : Session * Random :=
  let '(session, g) := s in
  let depth := 3 in
  match session with
  | AskRows =>
      match as_int line with
      | Some rows => (AskCols rows, g)
      | None => (AskRows, g)
      end
  | AskCols rows =>
      match as_int line with
      | None => (AskRows, g)
      | Some cols =>
          if bool_decide (depth < 1 ∨ rows < 1 ∨ cols < 1) then (AskRows, g)
          else if bool_decide (rows `min` cols < 3 ∨ rows `max` cols < 4) then (AskRows, g)
          else (AskCount rows cols [] SUBMARINE [DESTROYER; JET], g)
      end
  | AskCount rows cols counts ptype todo =>
      match as_int line with
      | None => (session, g)
      | Some num =>
          if bool_decide (num < 0) then (session, g)
          else
            let counts' := counts ++ [(ptype, num)] in
            match todo with
            | next :: todo' => (AskCount rows cols counts' next todo', g)
            | [] => (AskCommand rows cols (counts' ++ [(GENERAL, 1)]), g)
            end
      end
  | AskCommand rows cols counts =>
      match line with
      | StartLine =>
          match Game_init depth rows cols counts g with
          | (inl e, g') => (Returned (Uncaught e), g')
          | (inr game, g') => (Playing (_print_view game).2, g')
          end
      | ResetLine => (AskRows, g)
      | QuitLine => (Returned SetupAborted, g)
      | _ => (session, g)
      end
  | Playing game =>
      match turn game (as_command line) with
      | (InProgress, game') => (Playing (_print_view game').2, g)
      | (status, game') => (Returned (GameReturned status game'), g)
      end
  | Returned how => (session, g)
  end.

(** [run_game] on the lines it is given. *)
Definition run_game (lines : list Line) (g : Random) : Session * Random :=
  foldl step (AskRows, g) lines.

(** A board of a match the dialogue has started: three layers, a size the
    dialogue accepts, every vessel within the board, and a fleet of
    Submarines, Destroyers, Jets and one General, in that order. *)
Definition started_board (b : Board3D) : Prop :=
  depth b = 3 ∧ 3 ≤ rows b `min` cols b ∧ 4 ≤ rows b `max` cols b ∧
  (∀ p x y z, p ∈ pieces b → (x, y, z) ∈ coords p →
              0 ≤ x < cols b ∧ 0 ≤ y < rows b ∧ 0 ≤ z < 3) ∧
  ∃ subs dests jets : nat,
    map piece_type (pieces b) =
    replicate subs SUBMARINE ++ replicate dests DESTROYER ++ replicate jets JET ++ [GENERAL].

(** What holds of the dialogue wherever it stands. *)
Definition session_inv (session : Session) : Prop :=
  match session with
  | AskRows | AskCols _ => True
  | AskCount rows cols counts ptype todo =>
      3 ≤ rows `min` cols ∧ 4 ≤ rows `max` cols ∧
      Forall (λ '(_, num), 0 ≤ num) counts ∧
      map fst counts ++ ptype :: todo = [SUBMARINE; DESTROYER; JET]
  | AskCommand rows cols counts =>
      3 ≤ rows `min` cols ∧ 4 ≤ rows `max` cols ∧
      ∃ subs dests jets,
        0 ≤ subs ∧ 0 ≤ dests ∧ 0 ≤ jets ∧
        counts = [(SUBMARINE, subs); (DESTROYER, dests); (JET, jets); (GENERAL, 1)]
  | Playing game | Returned (GameReturned _ game) =>
      game_inv game ∧ ∀ pl, started_board (at_player (boards game) pl)
  | Returned SetupAborted => True
  | Returned (Uncaught e) =>
      (∃ ptype num max_count, e = CapacityExceeded ptype num max_count) ∨
      (∃ ptype, e = PlacementExhausted ptype) ∨
      e = ValueError EmptyRange
  end.
(** * Shape library *)
Section shape_library.
Implicit Types (l : list (Z * Z)) (V : gset (Z * Z)) (xs : list Z).

Lemma foldl_min_spec xs a :
  (foldl Z.min a xs = a ∨ foldl Z.min a xs ∈ xs) ∧
  foldl Z.min a xs ≤ a ∧ ∀ x, x ∈ xs → foldl Z.min a xs ≤ x.
Proof.
  revert a. induction xs as [|b xs IH]; intros a; simpl.
  - split; [by left|]. split; [lia|]. intros x Hx. by apply elem_of_nil in Hx.
  - destruct (IH (a `min` b)) as ([Heq | Hin] & Hle & Hall).
    + split.
      * rewrite Heq. destruct (Z.min_spec a b) as [[_ ->] | [_ ->]]; [by left | right; left].
      * split; [lia|]. intros x [-> | Hx]%elem_of_cons; [lia | by apply Hall].
    + split; [right; by right|].
      split; [lia|]. intros x [-> | Hx]%elem_of_cons; [lia | by apply Hall].
Qed.

Lemma py_min_spec xs m :
  py_min xs = Some m ↔ m ∈ xs ∧ ∀ x, x ∈ xs → m ≤ x.
Proof.
  destruct xs as [|a xs]; simpl.
  - split; [done | intros [H _]; by apply elem_of_nil in H].
  - destruct (foldl_min_spec xs a) as (Hin & Hle & Hall). split.
    + intros [= <-]. split.
      * destruct Hin as [-> | Hin]; [left | by right].
      * intros x [-> | Hx]%elem_of_cons; [done | by apply Hall].
    + intros [Hm Hmin]. f_equal.
      assert (foldl Z.min a xs ∈ a :: xs) as Hf.
      { destruct Hin as [-> | Hin]; [left | by right]. }
      apply Hmin in Hf.
      apply elem_of_cons in Hm as [-> | Hm]; [lia | apply Hall in Hm; lia].
Qed.

Lemma py_min_is_Some xs : xs ≠ [] → is_Some (py_min xs).
Proof. destruct xs; [done | by eexists]. Qed.

Lemma _normalize_normal_form l V : _normalize l = Some V ↔ normal_form l V.
Proof.
  unfold _normalize, normal_form. split.
  - intros H.
    destruct (py_min (map fst l)) as [mx|] eqn:Hx; [|done].
    destruct (py_min (map snd l)) as [my|] eqn:Hy; [|done].
    simpl in H. injection H as <-.
    exists mx, my. split; [by apply py_min_spec|]. split; [by apply py_min_spec|].
    intros x y. rewrite elem_of_list_to_set, list_elem_of_fmap. split.
    + intros ([x' y'] & [= -> ->] & Hin).
      by replace (x' - mx + mx) with x' by lia; replace (y' - my + my) with y' by lia.
    + intros Hin. exists (x + mx, y + my). split; [f_equal; lia | done].
  - intros (mx & my & Hx & Hy & HV).
    apply py_min_spec in Hx, Hy. rewrite Hx, Hy. simpl. f_equal.
    apply set_eq. intros [x y]. rewrite HV, elem_of_list_to_set, list_elem_of_fmap. split.
    + intros ([x' y'] & [= -> ->] & Hin).
      by replace (x' - mx + mx) with x' by lia; replace (y' - my + my) with y' by lia.
    + intros Hin. exists (x + mx, y + my). split; [f_equal; lia | done].
Qed.

Lemma _normalize_is_Some l : l ≠ [] → is_Some (_normalize l).
Proof.
  intros Hl. unfold _normalize.
  destruct (py_min_is_Some (map fst l)) as [mx ->]; [by destruct l|].
  destruct (py_min_is_Some (map snd l)) as [my ->]; [by destruct l|].
  by eexists.
Qed.

Lemma elem_of_map_fst l x : x ∈ map fst l ↔ ∃ y, (x, y) ∈ l.
Proof.
  change (map fst l) with (fst <$> l). rewrite list_elem_of_fmap. split.
  - intros ([x' y] & -> & H). by exists y.
  - intros [y H]. by exists (x, y).
Qed.

Lemma elem_of_map_snd l y : y ∈ map snd l ↔ ∃ x, (x, y) ∈ l.
Proof.
  change (map snd l) with (snd <$> l). rewrite list_elem_of_fmap. split.
  - intros ([x y'] & -> & H). by exists x.
  - intros [x H]. by exists (x, y).
Qed.

(** Normalizing forgets a translation (and the order and repetitions of
    the list). *)
Lemma normal_form_translate l1 l2 dx dy V :
  translate_of l1 l2 dx dy → normal_form l1 V → normal_form l2 V.
Proof.
  intros Ht (mx & my & [Hx1 Hx2] & [Hy1 Hy2] & HV).
  exists (mx + dx), (my + dy). repeat split.
  - apply elem_of_map_fst in Hx1 as [y Hy]. apply elem_of_map_fst. exists (y + dy).
    apply Ht. by replace (mx + dx - dx) with mx by lia; replace (y + dy - dy) with y by lia.
  - intros x [y Hy]%elem_of_map_fst. apply Ht in Hy.
    assert (x - dx ∈ map fst l1) as H by (apply elem_of_map_fst; eauto).
    apply Hx2 in H. lia.
  - apply elem_of_map_snd in Hy1 as [x Hx]. apply elem_of_map_snd. exists (x + dx).
    apply Ht. by replace (my + dy - dy) with my by lia; replace (x + dx - dx) with x by lia.
  - intros y [x Hx]%elem_of_map_snd. apply Ht in Hx.
    assert (y - dy ∈ map snd l1) as H by (apply elem_of_map_snd; eauto).
    apply Hy2 in H. lia.
  - intros H. apply Ht. apply HV in H.
    by replace (x + (mx + dx) - dx) with (x + mx) by lia;
       replace (y + (my + dy) - dy) with (y + my) by lia.
  - intros H. apply Ht in H. apply HV.
    by replace (x + (mx + dx) - dx) with (x + mx) in H by lia;
       replace (y + (my + dy) - dy) with (y + my) in H by lia.
Qed.

Lemma elem_of_rot90 l x y : (x, y) ∈ rot90 l ↔ (- y, x) ∈ l.
Proof.
  unfold rot90. change (map ?f l) with (f <$> l). rewrite list_elem_of_fmap. split.
  - intros ([a b] & [= -> ->] & H). by replace (- - a) with a by lia.
  - intros H. exists (- y, x). split; [f_equal; lia | done].
Qed.

Lemma rot90_translate l1 l2 dx dy :
  translate_of l1 l2 dx dy → translate_of (rot90 l1) (rot90 l2) dy (- dx).
Proof.
  intros Ht x y. rewrite !elem_of_rot90. unfold translate_of in Ht. rewrite Ht.
  by replace (- y - dx) with (- (y - - dx)) by lia.
Qed.

Lemma rot90_four l x y :
  (x, y) ∈ rot90 (rot90 (rot90 (rot90 l))) ↔ (x, y) ∈ l.
Proof.
  rewrite !elem_of_rot90. by replace (- - x) with x by lia; replace (- - y) with y by lia.
Qed.

(** The offsets of a normalized set are a translate of the input. *)
Lemma normal_form_elements l V :
  normal_form l V → ∃ dx dy, translate_of l (elements V) dx dy.
Proof.
  intros (mx & my & _ & _ & HV). exists (- mx), (- my). intros x y.
  rewrite elem_of_elements, HV.
  by replace (x - - mx) with (x + mx) by lia; replace (y - - my) with (y + my) by lia.
Qed.

Lemma normal_form_nonempty l V : normal_form l V → l ≠ [] ∧ V ≠ ∅.
Proof.
  intros (mx & my & [Hx _] & [Hy _] & HV). split.
  - intros ->. by apply elem_of_nil in Hx.
  - apply elem_of_map_fst in Hx as [y Hy'].
    intros ->. specialize (HV (mx - mx) (y - my)).
    replace (mx - mx + mx) with mx in HV by lia.
    replace (y - my + my) with y in HV by lia.
    apply HV in Hy'. by apply not_elem_of_empty in Hy'.
Qed.

(** A normalized set has minimum x and minimum y equal to 0. *)
Lemma normal_form_min l V :
  normal_form l V →
  py_min (map fst (elements V)) = Some 0 ∧ py_min (map snd (elements V)) = Some 0.
Proof.
  intros (mx & my & [Hx1 Hx2] & [Hy1 Hy2] & HV). split; apply py_min_spec; split.
  - apply elem_of_map_fst in Hx1 as [y Hy]. apply elem_of_map_fst. exists (y - my).
    apply elem_of_elements, HV. by replace (y - my + my) with y by lia.
  - intros x [y Hy]%elem_of_map_fst. apply elem_of_elements, HV in Hy.
    assert (x + mx ∈ map fst l) as H by (apply elem_of_map_fst; eauto).
    apply Hx2 in H. lia.
  - apply elem_of_map_snd in Hy1 as [x Hx]. apply elem_of_map_snd. exists (x - mx).
    apply elem_of_elements, HV. by replace (x - mx + mx) with x by lia.
  - intros y [x Hx]%elem_of_map_snd. apply elem_of_elements, HV in Hx.
    assert (y + my ∈ map snd l) as H by (apply elem_of_map_snd; eauto).
    apply Hy2 in H. lia.
Qed.

Lemma rot90_nonempty l : l ≠ [] → rot90 l ≠ [].
Proof. by destruct l. Qed.

Lemma elem_of_append_if_new (configs : list (gset (Z * Z))) norm V :
  V ∈ append_if_new configs norm ↔ V ∈ configs ∨ V = norm.
Proof.
  unfold append_if_new. case_decide.
  - split; [by left | by intros [? | ->]].
  - rewrite elem_of_app, list_elem_of_singleton. done.
Qed.

Lemma NoDup_append_if_new (configs : list (gset (Z * Z))) norm :
  NoDup configs → NoDup (append_if_new configs norm).
Proof.
  intros Hnd. unfold append_if_new. case_decide; [done|].
  apply NoDup_app. split; [done|]. split; [|apply NoDup_singleton].
  intros V HV ->%list_elem_of_singleton. done.
Qed.

Lemma length_append_if_new (configs : list (gset (Z * Z))) norm :
  (length configs ≤ length (append_if_new configs norm) ≤ S (length configs))%nat.
Proof.
  unfold append_if_new. case_decide; [lia|]. rewrite length_app. simpl. lia.
Qed.

(** The four passes of [_get_rotations], written out. *)
Lemma _get_rotations_unfold base :
  base ≠ [] →
  ∃ N0 N1 N2 N3,
    _normalize base = Some N0 ∧
    _normalize (rot90 base) = Some N1 ∧
    _normalize (rot90 (rot90 base)) = Some N2 ∧
    _normalize (rot90 (rot90 (rot90 base))) = Some N3 ∧
    _get_rotations base =
      Some (append_if_new (append_if_new (append_if_new (append_if_new [] N0) N1) N2) N3).
Proof.
  intros Hb.
  destruct (_normalize_is_Some base Hb) as [N0 H0].
  destruct (_normalize_is_Some (rot90 base)) as [N1 H1]; [by apply rot90_nonempty|].
  destruct (_normalize_is_Some (rot90 (rot90 base))) as [N2 H2];
    [by do 2 apply rot90_nonempty|].
  destruct (_normalize_is_Some (rot90 (rot90 (rot90 base)))) as [N3 H3];
    [by do 3 apply rot90_nonempty|].
  exists N0, N1, N2, N3. repeat (split; [done|]).
  unfold _get_rotations. simpl. rewrite H0. simpl. rewrite H1. simpl.
  rewrite H2. simpl. by rewrite H3.
Qed.

(** Rotating a normalized variant and normalizing again gives the
    normalization of the rotated input. *)
Lemma _normalize_rot90_elements l V V' :
  _normalize l = Some V → _normalize (rot90 l) = Some V' →
  _normalize (rot90 (elements V)) = Some V'.
Proof.
  intros HV HV'. apply _normalize_normal_form in HV, HV'. apply _normalize_normal_form.
  destruct (normal_form_elements _ _ HV) as (dx & dy & Ht).
  eapply normal_form_translate; [|exact HV']. by apply rot90_translate.
Qed.

End shape_library.

(** C9.  On a non-empty list of base offsets [_get_rotations] returns
    between one and four variants; each has minimum x and minimum y equal to
    0; no two are equal as sets; and rotating any of them by (x, y) -> (y, -x)
    and normalizing gives a variant of the list again. *)
Theorem rotations_closed (base : list (Z * Z)) :
  base ≠ [] →
  ∃ configs,
    _get_rotations base = Some configs ∧
    (1 ≤ length configs ≤ 4)%nat ∧
    (∀ V, V ∈ configs →
       py_min (map fst (elements V)) = Some 0 ∧ py_min (map snd (elements V)) = Some 0) ∧
    NoDup configs ∧
    (∀ V, V ∈ configs →
       ∃ V', _normalize (rot90 (elements V)) = Some V' ∧ V' ∈ configs).
Proof.
  intros Hb.
  destruct (_get_rotations_unfold base Hb) as (N0 & N1 & N2 & N3 & H0 & H1 & H2 & H3 & Hr).
  eexists. split; [exact Hr|].
  assert (_normalize (rot90 (rot90 (rot90 (rot90 base)))) = Some N0) as H4.
  { apply _normalize_normal_form. apply _normalize_normal_form in H0.
    eapply (normal_form_translate base _ 0 0); [|done].
    intros x y. rewrite rot90_four. by rewrite !Z.sub_0_r. }
  split; [|split; [|split]].
  - pose proof (length_append_if_new [] N0) as L0.
    pose proof (length_append_if_new (append_if_new [] N0) N1) as L1.
    pose proof (length_append_if_new (append_if_new (append_if_new [] N0) N1) N2) as L2.
    pose proof (length_append_if_new
                  (append_if_new (append_if_new (append_if_new [] N0) N1) N2) N3) as L3.
    assert (length (append_if_new [] N0) = 1%nat) as E0 by done.
    simpl in *. lia.
  - intros V HV. rewrite !elem_of_append_if_new in HV.
    destruct HV as [[[[HV | ->] | ->] | ->] | ->];
      [by apply elem_of_nil in HV | ..];
      eapply normal_form_min, _normalize_normal_form; eassumption.
  - do 4 apply NoDup_append_if_new. apply NoDup_nil_2.
  - intros V HV. rewrite !elem_of_append_if_new in HV.
    destruct HV as [[[[HV | ->] | ->] | ->] | ->]; [by apply elem_of_nil in HV | ..].
    + exists N1. split; [exact (_normalize_rot90_elements _ _ _ H0 H1)|].
      rewrite !elem_of_append_if_new. tauto.
    + exists N2. split; [exact (_normalize_rot90_elements _ _ _ H1 H2)|].
      rewrite !elem_of_append_if_new. tauto.
    + exists N3. split; [exact (_normalize_rot90_elements _ _ _ H2 H3)|].
      rewrite !elem_of_append_if_new. tauto.
    + exists N0. split; [exact (_normalize_rot90_elements _ _ _ H3 H4)|].
      rewrite !elem_of_append_if_new. tauto.
Qed.

Lemma rotations_closed_witness :
  [(0, 0); (1, 0)] ≠ [] ∧
  ∃ configs,
    _get_rotations [(0, 0); (1, 0)] = Some configs ∧
    (1 ≤ length configs ≤ 4)%nat ∧
    (∀ V, V ∈ configs →
       py_min (map fst (elements V)) = Some 0 ∧ py_min (map snd (elements V)) = Some 0) ∧
    NoDup configs ∧
    (∀ V, V ∈ configs →
       ∃ V', _normalize (rot90 (elements V)) = Some V' ∧ V' ∈ configs).
Proof. split; [discriminate | apply (rotations_closed [(0, 0); (1, 0)]); discriminate]. Defined.

(** * Placement *)

Section shape_tables.
Implicit Types (shape : gset (Z * Z)) (xs : list Z).

Lemma foldl_max_spec xs a :
  (foldl Z.max a xs = a ∨ foldl Z.max a xs ∈ xs) ∧
  a ≤ foldl Z.max a xs ∧ ∀ x, x ∈ xs → x ≤ foldl Z.max a xs.
Proof.
  revert a. induction xs as [|b xs IH]; intros a; simpl.
  - split; [by left|]. split; [lia|]. intros x Hx. by apply elem_of_nil in Hx.
  - destruct (IH (a `max` b)) as ([Heq | Hin] & Hle & Hall).
    + split.
      * rewrite Heq. destruct (Z.max_spec a b) as [[_ ->] | [_ ->]]; [right; left | by left].
      * split; [lia|]. intros x [-> | Hx]%elem_of_cons; [lia | by apply Hall].
    + split; [right; by right|].
      split; [lia|]. intros x [-> | Hx]%elem_of_cons; [lia | by apply Hall].
Qed.

Lemma py_max_spec xs m :
  py_max xs = Some m ↔ m ∈ xs ∧ ∀ x, x ∈ xs → x ≤ m.
Proof.
  destruct xs as [|a xs]; simpl.
  - split; [done | intros [H _]; by apply elem_of_nil in H].
  - destruct (foldl_max_spec xs a) as (Hin & Hle & Hall). split.
    + intros [= <-]. split.
      * destruct Hin as [-> | Hin]; [left | by right].
      * intros x [-> | Hx]%elem_of_cons; [done | by apply Hall].
    + intros [Hm Hmax]. f_equal.
      assert (foldl Z.max a xs ∈ a :: xs) as Hf.
      { destruct Hin as [-> | Hin]; [left | by right]. }
      apply Hmax in Hf.
      apply elem_of_cons in Hm as [-> | Hm]; [lia | apply Hall in Hm; lia].
Qed.

Lemma py_max_is_Some xs : xs ≠ [] → is_Some (py_max xs).
Proof. destruct xs; [done | by eexists]. Qed.

(** The tables hold what the module computes when it is loaded. *)
Lemma _SHAPES_2D_built ptype :
  match ptype with
  | GENERAL => (norm ← _normalize (base_offsets GENERAL); Some [norm])
  | _ => _get_rotations (base_offsets ptype)
  end = Some (_SHAPES_2D ptype).
Proof. destruct ptype; vm_compute; reflexivity. Qed.

Lemma _SHAPES_2D_checked ptype :
  forallb (shape_check (shape_size ptype)) (_SHAPES_2D ptype) = true.
Proof. destruct ptype; vm_compute; reflexivity. Qed.

Lemma _SHAPES_2D_length ptype :
  length (_SHAPES_2D ptype) =
  match ptype with SUBMARINE | DESTROYER => 2 | JET => 4 | GENERAL => 1 end%nat.
Proof. destruct ptype; vm_compute; reflexivity. Qed.

Lemma _SHAPES_2D_nonempty ptype : _SHAPES_2D ptype ≠ [].
Proof.
  intros H. pose proof (_SHAPES_2D_length ptype) as Hl. rewrite H in Hl.
  by destruct ptype.
Qed.

Lemma shape_facts ptype shape :
  shape ∈ _SHAPES_2D ptype →
  size shape = shape_size ptype ∧
  py_min (map fst (elements shape)) = Some 0 ∧
  py_min (map snd (elements shape)) = Some 0.
Proof.
  intros Hin. pose proof (_SHAPES_2D_checked ptype) as H.
  rewrite forallb_forall in H. apply list_elem_of_In, H in Hin.
  unfold shape_check in Hin.
  apply andb_prop in Hin as [Hin H3]. apply andb_prop in Hin as [H1 H2].
  apply bool_decide_eq_true in H1, H2, H3. done.
Qed.

Lemma shape_elements_nonempty ptype shape :
  shape ∈ _SHAPES_2D ptype → elements shape ≠ [].
Proof.
  intros (_ & H & _)%shape_facts Hnil. rewrite Hnil in H. done.
Qed.

Lemma shape_nonneg ptype shape x y :
  shape ∈ _SHAPES_2D ptype → (x, y) ∈ shape → 0 ≤ x ∧ 0 ≤ y.
Proof.
  intros (_ & [_ Hx]%py_min_spec & [_ Hy]%py_min_spec)%shape_facts Hin. split.
  - apply Hx, elem_of_map_fst. exists y. by apply elem_of_elements.
  - apply Hy, elem_of_map_snd. exists x. by apply elem_of_elements.
Qed.

Lemma shape_max_is_Some ptype shape :
  shape ∈ _SHAPES_2D ptype →
  is_Some (py_max (map fst (elements shape))) ∧ is_Some (py_max (map snd (elements shape))).
Proof.
  intros H%shape_elements_nonempty.
  split; apply py_max_is_Some; by destruct (elements shape).
Qed.

Lemma shape_below_max shape max_dx max_dy x y :
  py_max (map fst (elements shape)) = Some max_dx →
  py_max (map snd (elements shape)) = Some max_dy →
  (x, y) ∈ shape → x ≤ max_dx ∧ y ≤ max_dy.
Proof.
  intros [_ Hx]%py_max_spec [_ Hy]%py_max_spec Hin. split.
  - apply Hx, elem_of_map_fst. exists y. by apply elem_of_elements.
  - apply Hy, elem_of_map_snd. exists x. by apply elem_of_elements.
Qed.

End shape_tables.

Section commit_lemmas.
Implicit Types (occ : gmap Coordinate nat) (cs : gset Coordinate)
  (shape : gset (Z * Z)) (b : Board3D).

Lemma elem_of_absolute_coords x0 y0 z shape (c : Coordinate) :
  c ∈ absolute_coords x0 y0 z shape ↔
  ∃ x y, (x, y) ∈ shape ∧ c = (x0 + x, y0 + y, z).
Proof.
  unfold absolute_coords. rewrite elem_of_map. split.
  - intros ([x y] & -> & Hin). by exists x, y.
  - intros (x & y & Hin & ->). by exists (x, y).
Qed.

Lemma size_absolute_coords x0 y0 z shape :
  size (absolute_coords x0 y0 z shape) = size shape.
Proof.
  unfold absolute_coords, set_map.
  rewrite size_list_to_set.
  - by rewrite length_fmap.
  - apply NoDup_fmap_2; [|apply NoDup_elements].
    intros [x y] [x' y'] [= ? ?]. f_equal; lia.
Qed.

Lemma lookup_foldl_insert (i : nat) (l : list Coordinate) occ c :
  foldl (λ occ c, <[c := i]> occ) occ l !! c =
  if decide (c ∈ l) then Some i else occ !! c.
Proof.
  revert occ. induction l as [|a l IH]; intros occ; simpl.
  - destruct (decide (c ∈ [])) as [H | H]; [by apply elem_of_nil in H | done].
  - rewrite IH. destruct (decide (c ∈ l)) as [Hl | Hl].
    + rewrite decide_True; [done | by right].
    + destruct (decide (a = c)) as [-> | Hne].
      * rewrite lookup_insert_eq. rewrite decide_True; [done | left].
      * rewrite lookup_insert_ne by done.
        rewrite decide_False; [done|]. intros [-> | ?]%elem_of_cons; done.
Qed.

Lemma lookup_register_coords i cs occ c :
  register_coords i cs occ !! c = if decide (c ∈ cs) then Some i else occ !! c.
Proof.
  unfold register_coords. rewrite lookup_foldl_insert.
  destruct (decide (c ∈ elements cs)) as [H | H]; rewrite elem_of_elements in H;
    [by rewrite decide_True | by rewrite decide_False].
Qed.

Lemma any_occupied_false occ cs :
  any_occupied occ cs = false ↔ ∀ c, c ∈ cs → occ !! c = None.
Proof.
  unfold any_occupied. split.
  - intros H c Hc. destruct (occ !! c) eqn:E; [|done].
    assert (existsb (λ c, bool_decide (is_Some (occ !! c))) (elements cs) = true) as Ht.
    { apply existsb_exists. exists c. split.
      - by apply list_elem_of_In, elem_of_elements.
      - apply bool_decide_eq_true. by rewrite E. }
    congruence.
  - intros H. apply not_true_is_false. intros (c & Hc & Hs)%existsb_exists.
    apply list_elem_of_In, elem_of_elements, H in Hc.
    apply bool_decide_eq_true in Hs. rewrite Hc in Hs. by destruct Hs.
Qed.

(** Appending a vessel on free cells keeps the two containers in step. *)
Lemma commit_wf ptype cs b :
  wf_board b → (∀ c, c ∈ cs → occupied b !! c = None) →
  wf_board (commit ptype cs b).
Proof.
  intros [Hocc Hhits] Hfree. split.
  - intros c i. simpl. rewrite lookup_register_coords.
    destruct (decide (c ∈ cs)) as [Hc | Hc].
    + split.
      * intros [= <-]. exists (mkPiece ptype cs ∅). split; [|exact Hc].
        by rewrite lookup_app_r, Nat.sub_diag by lia.
      * intros (p & Hp & Hcp).
        destruct (decide (i < length (pieces b))%nat) as [Hlt | Hge].
        -- rewrite lookup_app_l in Hp by done.
           assert (occupied b !! c = Some i) as Ho by (apply Hocc; eauto).
           rewrite Hfree in Ho; done.
        -- rewrite lookup_app_r in Hp by lia.
           apply list_lookup_singleton_Some in Hp as [Hi _]. f_equal. lia.
    + split.
      * intros Ho. apply Hocc in Ho as (p & Hp & Hcp).
        exists p. split; [|done]. by apply lookup_app_l_Some.
      * intros (p & Hp & Hcp).
        destruct (decide (i < length (pieces b))%nat) as [Hlt | Hge].
        -- rewrite lookup_app_l in Hp by done. apply Hocc. eauto.
        -- rewrite lookup_app_r in Hp by lia.
           apply list_lookup_singleton_Some in Hp as [_ <-]. done.
  - intros p. simpl. rewrite elem_of_app, list_elem_of_singleton.
    intros [Hp | ->]; [by apply Hhits | simpl; set_solver].
Qed.

End commit_lemmas.

(** ** One vessel: [_place_random] *)

Section place_random.
Implicit Types (b : Board3D) (g : Random).

Lemma choice_elem_of {A} (l : list A) g x g' :
  choice l g = (inr x, g') → x ∈ l ∧ g' = (next_draw g).2.
Proof.
  unfold choice. destruct l as [|d l]; [done|].
  unfold next_draw. cbv beta iota.
  pose proof (Nat.mod_upper_bound (draws g (used g)) (length (d :: l))) as Hlt.
  revert Hlt. generalize (draws g (used g) `mod` length (d :: l))%nat. intros k Hlt.
  intros [= <- <-]. split; [|done].
  assert (k < length (d :: l))%nat as Hk by by apply Hlt.
  pose proof (nth_In (d :: l) d Hk) as Hin. by apply list_elem_of_In in Hin.
Qed.

Lemma choice_nonempty {A} (l : list A) g :
  l ≠ [] → ∃ x, choice l g = (inr x, (next_draw g).2).
Proof. destruct l; [done|]. intros _. by eexists. Qed.

Lemma randrange_inr n g k g' :
  randrange n g = (inr k, g') → 0 ≤ k < n ∧ g' = (next_draw g).2.
Proof.
  unfold randrange. case_decide; [done|]. intros [= <- <-]. split; [|done].
  apply Z.mod_pos_bound. lia.
Qed.

Lemma randrange_inl n g e g' :
  randrange n g = (inl e, g') → e = ValueError EmptyRange ∧ n ≤ 0 ∧ g' = g.
Proof. unfold randrange. case_decide; [|done]. by intros [= <- <-]. Qed.

(** Every way [place_attempts] can end: a vessel committed on free cells,
    all attempts used up, or an empty range handed to [randrange]. *)
Lemma place_attempts_cases n ptype b g r b' g' :
  place_attempts n ptype (b, g) = (r, (b', g')) →
  (r = inr () ∧ ∃ cs z, placed_by ptype b cs z ∧ b' = commit ptype cs b) ∨
  (r = inl (RuntimeError ptype) ∧ b' = b) ∨
  (r = inl (ValueError EmptyRange) ∧ b' = b).
Proof.
  revert g. induction n as [|n IH]; intros g.
  { simpl. unfold raise. intros [= <- <- <-]. right; left. done. }
  cbn [place_attempts]. unfold bind at 1. unfold lift_random at 1.
  destruct (choice (_SHAPES_2D ptype) g) as [[e | shape] g1] eqn:Hch.
  { destruct (choice_nonempty (_SHAPES_2D ptype) g (_SHAPES_2D_nonempty ptype)) as [x Hx].
    congruence. }
  apply choice_elem_of in Hch as [Hshape _].
  destruct (shape_max_is_Some _ _ Hshape) as [[max_dx Hdx] [max_dy Hdy]].
  rewrite Hdx, Hdy. cbn [of_option]. unfold bind at 1. unfold ret at 1.
  unfold bind at 1. unfold ret at 1. unfold bind at 1. unfold get_board at 1.
  unfold bind at 1.
  assert (∃ rz g2, (if decide (ptype = GENERAL) then lift_random (randrange (depth b))
                    else ret (value ptype - 1)) (b, g1) = (rz, (b, g2)) ∧
            match rz with
            | inl e => e = ValueError EmptyRange
            | inr z => if decide (ptype = GENERAL) then 0 ≤ z < depth b
                       else z = value ptype - 1
            end) as (rz & g2 & -> & Hz).
  { case_decide.
    - unfold lift_random. destruct (randrange (depth b) g1) as [[e | z] g2] eqn:Hr.
      + apply randrange_inl in Hr as (-> & _ & ->). by eexists _, _.
      + apply randrange_inr in Hr as [Hr ->]. by eexists _, _.
    - by eexists _, _. }
  destruct rz as [e | z].
  { subst e. intros [= <- <- <-]. right; right. done. }
  unfold bind at 1. unfold lift_random at 1.
  destruct (randrange (cols b - max_dx) g2) as [[e | x0] g3] eqn:Hx0.
  { apply randrange_inl in Hx0 as (-> & _ & ->). intros [= <- <- <-]. right; right. done. }
  apply randrange_inr in Hx0 as [Hx0 _].
  unfold bind at 1. unfold lift_random at 1.
  destruct (randrange (rows b - max_dy) g3) as [[e | y0] g4] eqn:Hy0.
  { apply randrange_inl in Hy0 as (-> & _ & ->). intros [= <- <- <-]. right; right. done. }
  apply randrange_inr in Hy0 as [Hy0 _].
  destruct (any_occupied (occupied b) (absolute_coords x0 y0 z shape)) eqn:Hany.
  { apply IH. }
  unfold put_board. intros [= <- <- <-]. left. split; [done|].
  exists (absolute_coords x0 y0 z shape), z. split; [|done].
  exists shape, max_dx, max_dy, x0, y0.
  repeat (split; [done|]). by apply any_occupied_false.
Qed.

(** One pass of the loop of [_place_random], step by step. *)
Lemma place_attempts_S n ptype b g :
  place_attempts (S n) ptype (b, g) =
  match choice (_SHAPES_2D ptype) g with
  | (inl e, g1) => (inl e, (b, g1))
  | (inr shape, g1) =>
      match py_max (map fst (elements shape)), py_max (map snd (elements shape)) with
      | Some max_dx, Some max_dy =>
          match (if decide (ptype = GENERAL) then randrange (depth b) g1
                 else (inr (value ptype - 1), g1)) with
          | (inl e, g2) => (inl e, (b, g2))
          | (inr z, g2) =>
              match randrange (cols b - max_dx) g2 with
              | (inl e, g3) => (inl e, (b, g3))
              | (inr x0, g3) =>
                  match randrange (rows b - max_dy) g3 with
                  | (inl e, g4) => (inl e, (b, g4))
                  | (inr y0, g4) =>
                      if any_occupied (occupied b) (absolute_coords x0 y0 z shape)
                      then place_attempts n ptype (b, g4)
                      else (inr (), (commit ptype (absolute_coords x0 y0 z shape) b, g4))
                  end
              end
          end
      | _, _ => (inl (ValueError EmptySequence), (b, g1))
      end
  end.
Proof.
  cbn [place_attempts]. unfold bind at 1. unfold lift_random at 1.
  destruct (choice (_SHAPES_2D ptype) g) as [[e | shape] g1]; [done|].
  unfold bind at 1.
  destruct (py_max (map fst (elements shape))) as [max_dx|]; [|done].
  cbn [of_option]. unfold ret at 1. unfold bind at 1.
  destruct (py_max (map snd (elements shape))) as [max_dy|]; [|done].
  cbn [of_option]. unfold ret at 1. unfold bind at 1. unfold get_board at 1.
  unfold bind at 1.
  destruct (decide (ptype = GENERAL)) as [Hg | Hg].
  - unfold lift_random at 1.
    destruct (randrange (depth b) g1) as [[e | z] g2]; [done|].
    unfold bind at 1. unfold lift_random at 1.
    destruct (randrange (cols b - max_dx) g2) as [[e | x0] g3]; [done|].
    unfold bind at 1. unfold lift_random at 1.
    destruct (randrange (rows b - max_dy) g3) as [[e | y0] g4]; [done|].
    by destruct (any_occupied _ _).
  - unfold ret at 1.
    unfold bind at 1. unfold lift_random at 1.
    destruct (randrange (cols b - max_dx) g1) as [[e | x0] g3]; [done|].
    unfold bind at 1. unfold lift_random at 1.
    destruct (randrange (rows b - max_dy) g3) as [[e | y0] g4]; [done|].
    by destruct (any_occupied _ _).
Qed.

Lemma randrange_pos n g :
  0 < n → randrange n g = (inr (Z.of_nat (draws g (used g)) `mod` n), (next_draw g).2).
Proof. intros Hn. unfold randrange. by rewrite decide_False by lia. Qed.


Lemma placed_by_well_placed ptype b cs z :
  placed_by ptype b cs z →
  well_placed (depth b) (rows b) (cols b) (mkPiece ptype cs ∅).
Proof.
  intros (shape & max_dx & max_dy & x0 & y0 & Hs & Hdx & Hdy & Hx0 & Hy0 & Hz & -> & _).
  exists shape, x0, y0, z. simpl. repeat (split; [done|]). split; [|done].
  intros x y Hin.
  destruct (shape_nonneg _ _ _ _ Hs Hin).
  destruct (shape_below_max _ _ _ _ _ Hdx Hdy Hin). lia.
Qed.

Lemma commit_placement_inv ptype b cs z :
  placement_inv b → placed_by ptype b cs z → placement_inv (commit ptype cs b).
Proof.
  intros [Hwf Hwp] Hby. split.
  - apply commit_wf; [done|].
    by destruct Hby as (? & ? & ? & ? & ? & _ & _ & _ & _ & _ & _ & _ & Hfree).
  - intros p. simpl. rewrite elem_of_app, list_elem_of_singleton.
    intros [Hp | ->]; [by apply Hwp | by eapply placed_by_well_placed].
Qed.

End place_random.

(** ** The placement pass: [place_all] *)

Section placement_pass.
Implicit Types (b : Board3D) (g : Random) (r : exn + unit)
  (counts items : list (PieceType * Z)).

Lemma same_dims_refl b : same_dims b b.
Proof. done. Qed.

Lemma same_dims_trans b1 b2 b3 : same_dims b1 b2 → same_dims b2 b3 → same_dims b1 b3.
Proof. unfold same_dims. intros (-> & -> & ->) (-> & -> & ->). done. Qed.

Lemma placement_inv_dims b b' :
  depth b' = depth b → rows b' = rows b → cols b' = cols b →
  occupied b' = occupied b → pieces b' = pieces b →
  placement_inv b → placement_inv b'.
Proof. destruct b, b'. simpl. by intros -> -> -> -> ->. Qed.

Lemma placement_inv_init d rs cs : placement_inv (Board3D_init d rs cs).
Proof.
  split; [split|].
  - intros c i. simpl. rewrite lookup_empty. split; [done|].
    intros (p & Hp & _). by rewrite lookup_nil in Hp.
  - intros p Hp. by apply elem_of_nil in Hp.
  - intros p Hp. by apply elem_of_nil in Hp.
Qed.

Lemma _place_random_inv ptype b g r b' g' :
  _place_random ptype (b, g) = (r, (b', g')) →
  placement_inv b →
  placement_inv b' ∧ same_dims b b' ∧ placement_result r.
Proof.
  intros H Hinv. apply place_attempts_cases in H as
    [(-> & cs & z & Hby & ->) | [[-> ->] | [-> ->]]].
  - split; [by eapply commit_placement_inv|]. split; [done | by left].
  - split; [done|]. split; [done|]. right; left. by eexists.
  - split; [done|]. split; [done|]. by right; right.
Qed.

Lemma place_times_inv n ptype b g r b' g' :
  place_times n ptype (b, g) = (r, (b', g')) →
  placement_inv b →
  placement_inv b' ∧ same_dims b b' ∧ placement_result r.
Proof.
  revert b g. induction n as [|n IH]; intros b g; simpl.
  - unfold ret. intros [= <- <- <-] Hinv. split; [done|]. split; [done | by left].
  - unfold bind.
    destruct (_place_random ptype (b, g)) as [[e | []] [b1 g1]] eqn:H1.
    + intros [= <- <- <-] Hinv. by eapply _place_random_inv.
    + intros H2 Hinv. eapply _place_random_inv in H1 as (Hinv1 & Hd1 & _); [|done].
      eapply IH in H2 as (Hinv2 & Hd2 & Hr); [|done].
      split; [done|]. split; [by eapply same_dims_trans | done].
Qed.

Lemma place_items_inv items b g r b' g' :
  place_items items (b, g) = (r, (b', g')) →
  placement_inv b →
  placement_inv b' ∧ same_dims b b' ∧ placement_result r.
Proof.
  revert b g. induction items as [|[ptype num] items IH]; intros b g; simpl.
  - unfold ret. intros [= <- <- <-] Hinv. split; [done|]. split; [done | by left].
  - unfold bind.
    destruct (place_times (Z.to_nat num) ptype (b, g)) as [[e | []] [b1 g1]] eqn:H1.
    + intros [= <- <- <-] Hinv. by eapply place_times_inv.
    + intros H2 Hinv. eapply place_times_inv in H1 as (Hinv1 & Hd1 & _); [|done].
      eapply IH in H2 as (Hinv2 & Hd2 & Hr); [|done].
      split; [done|]. split; [by eapply same_dims_trans | done].
Qed.

(** The bounding box [place_all] measures on the first variant of a type. *)
Lemma base_shape_box ptype :
  match _SHAPES_2D ptype with
  | [] => None
  | base_shape :: _ =>
      Some (py_max (map fst (elements base_shape)), py_min (map fst (elements base_shape)),
            py_max (map snd (elements base_shape)), py_min (map snd (elements base_shape)))
  end = Some (Some ((base_box ptype).1 - 1), Some 0, Some ((base_box ptype).2 - 1), Some 0).
Proof. destruct ptype; vm_compute; reflexivity. Qed.

Lemma max_count_capacity b ptype :
  max_count b ptype = inr (capacity (rows b) (cols b) ptype).
Proof.
  pose proof (base_shape_box ptype) as H. unfold max_count, capacity.
  destruct (_SHAPES_2D ptype) as [|base_shape rest]; [done|].
  injection H as -> -> -> ->.
  destruct (base_box ptype) as [w h]. simpl.
  by replace (w - 1 - 0 + 1) with w by lia; replace (h - 1 - 0 + 1) with h by lia.
Qed.

Lemma check_counts_inr b items :
  check_counts b items = inr () ↔
  ∀ ptype num, (ptype, num) ∈ items → ptype ≠ GENERAL →
               num ≤ capacity (rows b) (cols b) ptype.
Proof.
  induction items as [|[pt n] items IH]; simpl.
  - split; [|done]. intros _ ptype num H. by apply elem_of_nil in H.
  - rewrite max_count_capacity. destruct (decide (pt = GENERAL)) as [-> | Hne].
    + rewrite IH. split.
      * intros H ptype num [[= -> ->] | Hin]%elem_of_cons Hg; [done | by apply H].
      * intros H ptype num Hin. apply H. by right.
    + case_decide as Hgt.
      * split; [done|]. intros H.
        assert (n ≤ capacity (rows b) (cols b) pt) by (apply H; [left | done]). lia.
      * rewrite IH. split.
        -- intros H ptype num [[= -> ->] | Hin]%elem_of_cons Hg; [lia | by apply H].
        -- intros H ptype num Hin. apply H. by right.
Qed.

Lemma check_counts_inl b items e :
  check_counts b items = inl e →
  ∃ ptype num, (ptype, num) ∈ items ∧ ptype ≠ GENERAL ∧
               num > capacity (rows b) (cols b) ptype ∧
               e = CapacityExceeded ptype num (capacity (rows b) (cols b) ptype).
Proof.
  induction items as [|[pt n] items IH]; simpl; [done|].
  rewrite max_count_capacity. destruct (decide (pt = GENERAL)) as [-> | Hne].
  - intros (ptype & num & Hin & H)%IH. exists ptype, num. split; [by right | done].
  - case_decide as Hgt.
    + intros [= <-]. exists pt, n. split; [left | done].
    + intros (ptype & num & Hin & H)%IH. exists ptype, num. split; [by right | done].
Qed.

(** [place_all] in its three phases. *)
Lemma place_all_unfold counts b g :
  place_all counts (b, g) =
  if decide (counts_get counts GENERAL 0 ≠ 1) then (inl InvalidConfiguration, (b, g))
  else match check_counts b counts with
       | inl e => (inl e, (b, g))
       | inr _ => place_items counts (b, g)
       end.
Proof.
  unfold place_all. case_decide; [done|].
  unfold bind, get_board. by destruct (check_counts b counts).
Qed.

Lemma place_all_inv counts b g r b' g' :
  place_all counts (b, g) = (r, (b', g')) →
  placement_inv b → placement_inv b' ∧ same_dims b b'.
Proof.
  rewrite place_all_unfold. case_decide as Hgen.
  { intros [= <- <- <-]. done. }
  destruct (check_counts b counts).
  { intros [= <- <- <-]. done. }
  intros Hrun Hinv. eapply place_items_inv in Hrun as (? & ? & _); done.
Qed.

End placement_pass.

(** * Properties of the placement engine *)

Lemma demo_run_ok : demo_run = (inr (), (demo_board, demo_run.2.2)).
Proof. vm_compute. reflexivity. Qed.

(** C7.  After a successful [place_all] on a fresh board: [occupied] maps a
    coordinate to a vessel exactly when that vessel of [pieces] occupies it,
    the cells of two different vessels are disjoint, and every vessel has
    as many cells as the shape of its type (3, 4, 6 and 1). *)
Theorem place_all_collision_free (d rs cs : Z) (counts : list (PieceType * Z))
    (g : Random) (b' : Board3D) (g' : Random) :
  place_all counts (Board3D_init d rs cs, g) = (inr (), (b', g')) →
  (∀ c i, occupied b' !! c = Some i ↔ ∃ p, pieces b' !! i = Some p ∧ c ∈ coords p) ∧
  (∀ i j p q, i ≠ j → pieces b' !! i = Some p → pieces b' !! j = Some q →
              coords p ## coords q) ∧
  (∀ p, p ∈ pieces b' → size (coords p) = shape_size (piece_type p)).
Proof.
  intros Hrun.
  apply place_all_inv in Hrun as [[[Hocc _] Hwp] _]; [|apply placement_inv_init].
  split; [done|]. split.
  - intros i j p q Hij Hp Hq. apply elem_of_disjoint. intros c Hcp Hcq.
    assert (occupied b' !! c = Some i) as Hi by (apply Hocc; eauto).
    assert (occupied b' !! c = Some j) as Hj by (apply Hocc; eauto).
    congruence.
  - intros p (shape & x0 & y0 & z & Hs & -> & _)%Hwp.
    rewrite size_absolute_coords. by apply shape_facts.
Qed.

Lemma place_all_collision_free_witness :
  (∀ c i, occupied demo_board !! c = Some i ↔
          ∃ p, pieces demo_board !! i = Some p ∧ c ∈ coords p) ∧
  (∀ i j p q, i ≠ j → pieces demo_board !! i = Some p → pieces demo_board !! j = Some q →
              coords p ## coords q) ∧
  (∀ p, p ∈ pieces demo_board → size (coords p) = shape_size (piece_type p)).
Proof. exact (place_all_collision_free 3 5 5 demo_counts _ _ _ demo_run_ok). Defined.

(** C5, as the code has it.  After a successful [place_all] on a fresh
    board every cell of every vessel lies inside its layer and on a layer
    that is not negative; it lies below the number of layers for the General
    and for a type whose fixed layer exists, so for every vessel of a board
    of three layers or more. *)
Theorem place_all_within_bounds (d rs cs : Z) (counts : list (PieceType * Z))
    (g : Random) (b' : Board3D) (g' : Random) :
  place_all counts (Board3D_init d rs cs, g) = (inr (), (b', g')) →
  ∀ p x y z, p ∈ pieces b' → (x, y, z) ∈ coords p →
    0 ≤ x < cs ∧ 0 ≤ y < rs ∧ 0 ≤ z ∧
    (piece_type p = GENERAL ∨ value (piece_type p) ≤ d → z < d) ∧
    (3 ≤ d → z < d).
Proof.
  intros Hrun p x y z Hp Hc.
  apply place_all_inv in Hrun as [[_ Hwp] (Hd & Hr & Hcs)]; [|apply placement_inv_init].
  simpl in Hd, Hr, Hcs.
  apply Hwp in Hp as (shape & x0 & y0 & z0 & Hs & Hcoords & Hbox & Hz).
  rewrite Hcoords in Hc. apply elem_of_absolute_coords in Hc as (dx & dy & Hin & [= -> -> ->]).
  apply Hbox in Hin as [Hx Hy]. rewrite Hd, Hr, Hcs in *.
  split; [lia|]. split; [lia|].
  case_decide as Hg.
  - split; [lia|]. split; intros; lia.
  - assert (1 ≤ value (piece_type p) ≤ 3) as Hv.
    { clear Hs Hcoords. destruct (piece_type p); [simpl; lia.. | done]. }
    split; [lia|]. split; [intros [? | ?]; [done | lia] | lia].
Qed.

Lemma demo_destroyer_placed : demo_destroyer ∈ pieces demo_board.
Proof. apply (list_elem_of_lookup_2 _ 1%nat). vm_compute. reflexivity. Qed.

Lemma place_all_within_bounds_witness :
  demo_run = (inr (), (demo_board, demo_run.2.2)) ∧
  demo_destroyer ∈ pieces demo_board ∧ (3, 0, 1) ∈ coords demo_destroyer ∧
  (0 ≤ 3 < 5 ∧ 0 ≤ 0 < 5 ∧ 0 ≤ 1 ∧
   (piece_type demo_destroyer = GENERAL ∨ value (piece_type demo_destroyer) ≤ 3 → 1 < 3) ∧
   (3 ≤ 3 → 1 < 3)).
Proof.
  assert ((3, 0, 1) ∈ coords demo_destroyer) as Hc by (simpl; set_solver).
  split; [exact demo_run_ok|]. split; [exact demo_destroyer_placed|]. split; [exact Hc|].
  exact (place_all_within_bounds 3 5 5 demo_counts _ _ _ demo_run_ok
           demo_destroyer 3 0 1 demo_destroyer_placed Hc).
Defined.

(** C5 as the spec states it fails on a board of one layer: the Destroyer is
    placed on layer 1, which the board does not have. *)
Lemma shallow_board_out_of_bounds :
  ∃ b' g' p x y z,
    shallow_run = (inr (), (b', g')) ∧ 0 < depth b' ∧
    p ∈ pieces b' ∧ (x, y, z) ∈ coords p ∧ ¬ (0 ≤ z < depth b').
Proof.
  exists shallow_run.2.1, shallow_run.2.2,
    (mkPiece DESTROYER (absolute_coords 0 0 1 (list_to_set [(0, 0); (1, 0); (2, 0); (3, 0)])) ∅),
    0, 0, 1.
  split; [vm_compute; reflexivity|]. split; [vm_compute; reflexivity|].
  split.
  - replace (pieces shallow_run.2.1) with
      [mkPiece DESTROYER (absolute_coords 0 0 1 (list_to_set [(0, 0); (1, 0); (2, 0); (3, 0)])) ∅;
       mkPiece GENERAL (absolute_coords 4 4 0 {[ (0, 0) ]}) ∅]
      by (vm_compute; reflexivity).
    left.
  - split.
    + apply elem_of_absolute_coords. exists 0, 0. split; [set_solver | done].
    + replace (depth shallow_run.2.1) with 1 by (vm_compute; reflexivity). lia.
Qed.









(** C6.  [place_all] raises "Exactly one General required" exactly when the
    count of the General is not 1; otherwise it raises "Cannot place ..."
    exactly when the count of some other type exceeds the packing bound of
    its base shape, and the error reports that type, its count and the
    bound; either error leaves the board and the random source as they
    were.  Ten Destroyers on a 5 x 5 layer are refused that way. *)
Theorem place_all_validation (counts : list (PieceType * Z)) (b : Board3D) (g : Random) :
  let run := place_all counts (b, g) in
  (run.1 = inl InvalidConfiguration ↔ counts_get counts GENERAL 0 ≠ 1) ∧
  (counts_get counts GENERAL 0 = 1 →
     ((∃ ptype num m, run.1 = inl (CapacityExceeded ptype num m)) ↔
      (∃ ptype num, (ptype, num) ∈ counts ∧ ptype ≠ GENERAL ∧
                    num > capacity (rows b) (cols b) ptype))) ∧
  (∀ ptype num m, run.1 = inl (CapacityExceeded ptype num m) →
     (ptype, num) ∈ counts ∧ ptype ≠ GENERAL ∧
     m = capacity (rows b) (cols b) ptype ∧ num > m) ∧
  (run.1 = inl InvalidConfiguration ∨
   (∃ ptype num m, run.1 = inl (CapacityExceeded ptype num m)) → run.2 = (b, g)) ∧
  (rows b = 5 → cols b = 5 → counts_get counts GENERAL 0 = 1 → (DESTROYER, 10) ∈ counts →
     ∃ ptype num m, run = (inl (CapacityExceeded ptype num m), (b, g))).
Proof.
  intros run. subst run. rewrite place_all_unfold.
  destruct (decide (counts_get counts GENERAL 0 ≠ 1)) as [Hg | Hg].
  { simpl. split; [done|]. split; [done|]. split; [done|]. split; [done|]. intros; done. }
  assert (counts_get counts GENERAL 0 = 1) as Hg1 by lia.
  destruct (check_counts b counts) as [e | []] eqn:Hcheck.
  - apply check_counts_inl in Hcheck as (ptype & num & Hin & Hne & Hgt & ->). simpl.
    split; [split; [done | lia]|].
    split. { intros _. split; [eauto | intros _; eauto]. }
    split. { intros ? ? ? [= <- <- <-]. done. }
    split; [done|]. intros _ _ _ _. eauto.
  - pose proof Hcheck as Hall. rewrite check_counts_inr in Hall.
    destruct (place_items counts (b, g)) as [r [b' g']] eqn:Hrun. simpl.
    assert (placement_inv_free : ∀ e, r = inl e →
              e ≠ InvalidConfiguration ∧ ∀ ptype num m, e ≠ CapacityExceeded ptype num m).
    { intros e ->. revert Hrun. clear. revert b g.
      induction counts as [|[ptype num] counts IH]; intros b g; simpl.
      - unfold ret. done.
      - unfold bind.
        destruct (place_times (Z.to_nat num) ptype (b, g)) as [[e1 | []] [b1 g1]] eqn:H1.
        + intros [= -> <- <-]. clear IH. revert b g H1.
          induction (Z.to_nat num) as [|n IHn]; intros b g; simpl; [done|].
          unfold bind.
          destruct (_place_random ptype (b, g)) as [[e2 | []] [b2 g2]] eqn:H2.
          * intros [= -> <- <-].
            apply place_attempts_cases in H2 as [[[=] _] | [[[= ->] _] | [[= ->] _]]]; done.
          * apply IHn.
        + apply IH. }
    split. { split; [|done]. intros ->. by destruct (placement_inv_free _ eq_refl). }
    split.
    { intros _. split.
      - intros (ptype & num & m & ->).
        destruct (placement_inv_free _ eq_refl) as [_ H]. by destruct (H ptype num m).
      - intros (ptype & num & Hin & Hne & Hgt). specialize (Hall _ _ Hin Hne). lia. }
    split.
    { intros ptype num m ->.
      destruct (placement_inv_free _ eq_refl) as [_ H]. by destruct (H ptype num m). }
    split.
    { intros [-> | (ptype & num & m & ->)];
        destruct (placement_inv_free _ eq_refl) as [H1 H2]; [done | by destruct (H2 ptype num m)]. }
    intros Hr Hc _ Hin. specialize (Hall _ _ Hin ltac:(done)).
    rewrite Hr, Hc in Hall. vm_compute in Hall. done.
Qed.

(** C4: the failing input.  The 3 x 4 board passes the capacity check for
    one Destroyer, and [_place_random] then ends neither with a vessel
    placed nor with its [RuntimeError]: the vertical variant leaves an empty
    range for the row of the anchor, and [randrange] raises [ValueError]. *)
Theorem narrow_board_placement_raises :
  counts_get narrow_counts GENERAL 0 = 1 ∧
  check_counts (Board3D_init 3 3 4) narrow_counts = inr () ∧
  (_place_random DESTROYER (Board3D_init 3 3 4, tape [1]%nat)).1 = inl (ValueError EmptyRange) ∧
  narrow_run.1 = inl (ValueError EmptyRange) ∧
  narrow_run.2.1 = Board3D_init 3 3 4.
Proof. vm_compute. repeat split; reflexivity. Qed.

(** * Vessels and fire resolution *)

Lemma register_hit_miss (p : Piece) (c : Coordinate) : c ∉ coords p → register_hit p c = (MISS, p).
Proof. intros H. unfold register_hit. by rewrite decide_True. Qed.

Lemma register_hit_hit (p : Piece) (c : Coordinate) :
  c ∈ coords p →
  register_hit p c =
  (if single_hit_kill (piece_type p) then KILL
   else if decide (hits p ∪ {[c]} = coords p) then KILL else HIT,
   mkPiece (piece_type p) (coords p) (hits p ∪ {[c]})).
Proof.
  intros H. unfold register_hit, single_hit_kill.
  rewrite decide_False by (by intros ?). simpl.
  destruct (decide (piece_type p ∈ [SUBMARINE; JET; GENERAL])) as [Hs | Hs].
  - by rewrite bool_decide_eq_true_2.
  - rewrite bool_decide_eq_false_2 by done. by case_decide.
Qed.

(** C3.  [register_hit] on a coordinate the vessel does not occupy returns
    MISS and leaves the vessel as it was; on an occupied coordinate it adds
    the coordinate to the hits and nothing else, so the hits only grow and
    stay among the occupied cells, and it returns KILL for a Submarine, a
    Jet and the General, and for a Destroyer KILL when the hits now equal the
    cells and HIT otherwise. *)
Theorem register_hit_spec (self : Piece) (c : Coordinate) :
  let sig := (register_hit self c).1 in
  let self' := (register_hit self c).2 in
  (c ∉ coords self → sig = MISS ∧ self' = self) ∧
  (c ∈ coords self →
     self' = mkPiece (piece_type self) (coords self) (hits self ∪ {[c]}) ∧
     hits self ⊆ hits self' ∧
     (hits self ⊆ coords self → hits self' ⊆ coords self') ∧
     match piece_type self with
     | SUBMARINE | JET | GENERAL => sig = KILL
     | DESTROYER => sig = if decide (hits self' = coords self') then KILL else HIT
     end).
Proof.
  intros sig self'. subst sig self'. split.
  - intros Hout. by rewrite register_hit_miss.
  - intros Hin. rewrite register_hit_hit by done. simpl.
    split; [done|]. split; [set_solver|]. split; [set_solver|].
    unfold single_hit_kill. destruct (piece_type self).
    + by rewrite bool_decide_eq_true_2 by set_solver.
    + by rewrite bool_decide_eq_false_2
        by (rewrite !elem_of_cons, elem_of_nil; naive_solver).
    + by rewrite bool_decide_eq_true_2 by set_solver.
    + by rewrite bool_decide_eq_true_2 by set_solver.
Qed.

Section fire_resolution.
Implicit Types (b : Board3D) (c : Coordinate) (p : Piece).

(** A repeated hit changes nothing in the vessel. *)
Lemma register_hit_again p c : c ∈ hits p → (register_hit p c).2 = p.
Proof.
  intros Hh. unfold register_hit. case_decide; [done|].
  assert (hits p ∪ {[c]} = hits p) as -> by set_solver.
  destruct p. simpl. by repeat case_decide.
Qed.

(** [receive_fire] by cases on what [occupied.get] finds. *)
Lemma receive_fire_None b c :
  occupied_get b c = None → receive_fire b c = (MISS, b).
Proof.
  unfold occupied_get, receive_fire. destruct (occupied b !! c) as [i|]; [|done].
  simpl. by intros ->.
Qed.

Lemma receive_fire_Some b c i p :
  occupied b !! c = Some i → pieces b !! i = Some p →
  receive_fire b c =
  ((register_hit p c).1,
   mkBoard (depth b) (rows b) (cols b) (occupied b) (<[i := (register_hit p c).2]> (pieces b))).
Proof.
  intros Ho Hp. unfold receive_fire. rewrite Ho, Hp.
  by destruct (register_hit p c).
Qed.

Lemma evolves_refl b : evolves b b.
Proof. split; [done|]. split; [done|]. split; [done|]. intros i p Hp. eauto. Qed.

Lemma evolves_trans b1 b2 b3 : evolves b1 b2 → evolves b2 b3 → evolves b1 b3.
Proof.
  intros (Hd1 & Ho1 & Hl1 & Hp1) (Hd2 & Ho2 & Hl2 & Hp2).
  split; [by eapply same_dims_trans|]. split; [congruence|]. split; [congruence|].
  intros i p (p' & Hp' & Ht & Hc & Hh)%Hp1.
  apply Hp2 in Hp' as (p'' & Hp'' & Ht' & Hc' & Hh').
  exists p''. split; [done|]. split; [congruence|]. split; [congruence | set_solver].
Qed.

Lemma receive_fire_evolves b c : evolves b (receive_fire b c).2.
Proof.
  unfold receive_fire.
  destruct (occupied b !! c) as [i|] eqn:Ho; [|apply evolves_refl].
  destruct (pieces b !! i) as [p|] eqn:Hp; [|apply evolves_refl].
  destruct (register_hit p c) as [sig p'] eqn:Hr. simpl.
  split; [done|]. split; [done|]. split; [simpl; by rewrite length_insert|].
  intros j q Hq. simpl. destruct (decide (i = j)) as [<- | Hne].
  - exists p'. split; [apply list_lookup_insert_eq; by eapply lookup_lt_Some|].
    assert (q = p) as -> by congruence.
    destruct (decide (c ∈ coords p)) as [Hin | Hout].
    + rewrite register_hit_hit in Hr by done. injection Hr as _ <-. simpl.
      split; [done|]. split; [done | set_solver].
    + rewrite register_hit_miss in Hr by done. by injection Hr as _ <-.
  - exists q. by rewrite list_lookup_insert_ne.
Qed.

Lemma receive_fire_wf b c : wf_board b → wf_board (receive_fire b c).2.
Proof.
  intros [Hocc Hhits]. unfold receive_fire.
  destruct (occupied b !! c) as [i|] eqn:Ho; [|done].
  destruct (pieces b !! i) as [p|] eqn:Hp; [|done].
  destruct (register_hit p c) as [sig p'] eqn:Hr. simpl.
  assert (c ∈ coords p) as Hin.
  { apply Hocc in Ho as (q & Hq & Hcq). congruence. }
  rewrite register_hit_hit in Hr by done. injection Hr as _ Hp'.
  assert (hits p' ⊆ coords p') as Hsub'.
  { assert (hits p ⊆ coords p) by (apply Hhits; by eapply list_elem_of_lookup_2).
    rewrite <- Hp'. simpl. set_solver. }
  assert (coords p' = coords p) as Hcs by by rewrite <- Hp'.
  split.
  - intros c' j. simpl. rewrite Hocc. destruct (decide (i = j)) as [<- | Hne].
    + rewrite list_lookup_insert_eq by by eapply lookup_lt_Some. rewrite Hp. split.
      * intros (q & [= <-] & Hq). exists p'. by rewrite Hcs.
      * intros (q & [= <-] & Hq). exists p. by rewrite <- Hcs.
    + by rewrite list_lookup_insert_ne.
  - intros q. simpl. intros Hq. apply list_elem_of_lookup in Hq as [j Hq].
    destruct (decide (i = j)) as [<- | Hne].
    + rewrite list_lookup_insert_eq in Hq by by eapply lookup_lt_Some.
      by injection Hq as <-.
    + rewrite list_lookup_insert_ne in Hq by done.
      apply Hhits. by eapply list_elem_of_lookup_2.
Qed.

Lemma fire_all_wf b fired : wf_board b → wf_board (fire_all b fired).
Proof.
  revert b. induction fired as [|c fired IH]; intros b Hwf; [done|].
  simpl. apply IH. by apply receive_fire_wf.
Qed.

Lemma fire_all_evolves b fired : evolves b (fire_all b fired).
Proof.
  revert b. induction fired as [|c fired IH]; intros b; [apply evolves_refl|].
  simpl. eapply evolves_trans; [apply receive_fire_evolves | apply IH].
Qed.

Lemma placed_wf b : placed b → wf_board b.
Proof.
  intros (d & rs & cs & counts & g & g' & Hrun).
  apply place_all_inv in Hrun as [[Hwf _] _]; [done | apply placement_inv_init].
Qed.

Lemma reachable_wf b : reachable b → wf_board b.
Proof. intros (b0 & fired & Hp & ->). by apply fire_all_wf, placed_wf. Qed.

Lemma occupied_get_Some b c p :
  occupied_get b c = Some p ↔ ∃ i, occupied b !! c = Some i ∧ pieces b !! i = Some p.
Proof.
  unfold occupied_get. destruct (occupied b !! c) as [i|]; simpl.
  - split; [eauto | by intros (? & [= <-] & ?)].
  - split; [done | by intros (? & ? & ?)].
Qed.

Lemma wf_occupied_get b c p : wf_board b → occupied_get b c = Some p → c ∈ coords p.
Proof.
  intros [Hocc _] (i & Ho & Hp)%occupied_get_Some.
  apply Hocc in Ho as (q & Hq & Hc). congruence.
Qed.

Lemma wf_occupied_get_None b c :
  wf_board b → occupied_get b c = None → occupied b !! c = None.
Proof.
  intros [Hocc _]. unfold occupied_get.
  destruct (occupied b !! c) as [i|] eqn:Ho; [|done]. simpl. intros Hp.
  apply Hocc in Ho as (q & Hq & _). congruence.
Qed.

Lemma evolves_occupied_get b b' c p :
  evolves b b' → occupied_get b c = Some p →
  ∃ p', occupied_get b' c = Some p' ∧ piece_type p' = piece_type p ∧
        coords p' = coords p ∧ hits p ⊆ hits p'.
Proof.
  intros (_ & Ho & _ & Hps) (i & Hi & Hp)%occupied_get_Some.
  apply Hps in Hp as (p' & Hp' & H). exists p'. split; [|done].
  apply occupied_get_Some. exists i. by rewrite Ho.
Qed.

Lemma evolves_occupied_get_None b b' c :
  wf_board b → evolves b b' → occupied_get b c = None → occupied_get b' c = None.
Proof.
  intros Hwf (_ & Ho & _ & _) Hn%wf_occupied_get_None; [|done].
  unfold occupied_get. by rewrite Ho, Hn.
Qed.

(** After [receive_fire] at [c] the hit is on record. *)
Lemma receive_fire_recorded b c : wf_board b → recorded c (receive_fire b c).2.
Proof.
  intros Hwf p'. destruct (occupied_get b c) as [p|] eqn:Hg.
  - pose proof (wf_occupied_get _ _ _ Hwf Hg) as Hin.
    apply occupied_get_Some in Hg as (i & Ho & Hp).
    rewrite (receive_fire_Some _ _ _ _ Ho Hp), register_hit_hit by done. simpl.
    intros (j & Hj & Hp')%occupied_get_Some. simpl in Hj, Hp'.
    assert (j = i) as -> by congruence.
    rewrite list_lookup_insert_eq in Hp' by by eapply lookup_lt_Some.
    injection Hp' as <-. simpl. set_solver.
  - rewrite receive_fire_None by done. simpl. congruence.
Qed.

Lemma evolves_recorded b b' c : evolves b b' → recorded c b → recorded c b'.
Proof.
  intros Hev Hrec p' (i & Ho' & Hp')%occupied_get_Some.
  destruct Hev as (_ & Ho & Hlen & Hps). rewrite Ho in Ho'.
  destruct (pieces b !! i) as [p|] eqn:Hp.
  - destruct (Hps _ _ Hp) as (q & Hq & _ & _ & Hsub).
    assert (q = p') as -> by congruence.
    apply Hsub, Hrec, occupied_get_Some. eauto.
  - apply lookup_ge_None in Hp. apply lookup_lt_Some in Hp'. lia.
Qed.

(** Firing again at a coordinate on record changes nothing on the board,
    and the signal is the one the vessel's present hits give. *)
Lemma receive_fire_again b c :
  wf_board b → recorded c b →
  receive_fire b c =
  (match occupied_get b c with
   | None => MISS
   | Some p => if single_hit_kill (piece_type p) then KILL
               else if decide (hits p = coords p) then KILL else HIT
   end, b).
Proof.
  intros Hwf Hrec. destruct (occupied_get b c) as [p|] eqn:Hg.
  - pose proof (wf_occupied_get _ _ _ Hwf Hg) as Hin.
    pose proof (Hrec _ Hg) as Hh.
    apply occupied_get_Some in Hg as (i & Ho & Hp).
    rewrite (receive_fire_Some _ _ _ _ Ho Hp), register_hit_hit by done. simpl.
    assert (hits p ∪ {[c]} = hits p) as -> by set_solver.
    f_equal. destruct b as [d rs cs occ ps]. simpl in *. f_equal.
    apply list_insert_id. rewrite Hp. by destruct p.
  - by apply receive_fire_None.
Qed.

End fire_resolution.

Lemma demo_board_placed : placed demo_board.
Proof. exists 3, 5, 5, demo_counts. eexists _, _. exact demo_run_ok. Qed.

Lemma demo_board_reachable : reachable demo_board.
Proof. exists demo_board, []. split; [apply demo_board_placed | done]. Qed.

(** C8 as the spec states it fails on a Destroyer: the first shot at one of
    its cells returns HIT, and the same shot after the other three cells
    have been hit returns KILL. *)
Lemma refire_signal_changes :
  ¬ (∀ b c fired, reachable b →
       (receive_fire (fire_all (receive_fire b c).2 fired) c).1 = (receive_fire b c).1).
Proof.
  intros H.
  specialize (H demo_board (0, 0, 1) [(1, 0, 1); (2, 0, 1); (3, 0, 1)] demo_board_reachable).
  vm_compute in H. discriminate.
Qed.

(** C8, as the code has it.  On a board reachable after placement, a later
    call of [receive_fire] at a coordinate already fired at, whatever has
    been fired in between, leaves the board and its vessels unchanged; it
    returns the first signal again when that was MISS or KILL; when that was
    HIT, the coordinate lies on a Destroyer and the later call returns KILL
    once all cells of that Destroyer are hit and HIT until then. *)
Theorem refire_outcome (b : Board3D) (c : Coordinate) (fired : list Coordinate) :
  reachable b →
  let s := (receive_fire b c).1 in
  let b2 := fire_all (receive_fire b c).2 fired in
  (receive_fire b2 c).2 = b2 ∧
  (s ≠ HIT → (receive_fire b2 c).1 = s) ∧
  (s = HIT →
     ∃ p, occupied_get b2 c = Some p ∧ piece_type p = DESTROYER ∧
          (receive_fire b2 c).1 = if decide (hits p = coords p) then KILL else HIT).
Proof.
  intros Hwf%reachable_wf s b2.
  pose proof (receive_fire_wf b c Hwf) as Hwf1.
  pose proof (receive_fire_recorded b c Hwf) as Hrec1.
  pose proof (fire_all_evolves (receive_fire b c).2 fired) as Hev12.
  pose proof (fire_all_wf _ fired Hwf1) as Hwf2. fold b2 in Hev12, Hwf2.
  pose proof (evolves_recorded _ _ _ Hev12 Hrec1) as Hrec2.
  pose proof (evolves_trans _ _ _ (receive_fire_evolves b c) Hev12) as Hev.
  rewrite (receive_fire_again b2 c Hwf2 Hrec2). simpl. split; [done|].
  subst s. destruct (occupied_get b c) as [p|] eqn:Hg.
  - pose proof (wf_occupied_get _ _ _ Hwf Hg) as Hin.
    destruct (evolves_occupied_get _ _ _ _ Hev Hg) as (p2 & Hg2 & Ht & Hc & Hh).
    pose proof (Hrec2 _ Hg2) as Hc2.
    assert (hits p2 ⊆ coords p2) as Hsub.
    { destruct Hwf2 as [_ Hhits]. apply Hhits.
      apply occupied_get_Some in Hg2 as (i & _ & Hp2). by eapply list_elem_of_lookup_2. }
    apply occupied_get_Some in Hg as (i & Ho & Hp).
    rewrite (receive_fire_Some _ _ _ _ Ho Hp), register_hit_hit by done. simpl.
    rewrite Hg2, Ht. destruct (single_hit_kill (piece_type p)) eqn:Hs; [done|].
    assert (piece_type p = DESTROYER) as Hd.
    { unfold single_hit_kill in Hs. apply bool_decide_eq_false in Hs.
      destruct (piece_type p); [exfalso; apply Hs; set_solver | done | ..];
        exfalso; apply Hs; set_solver. }
    destruct (decide (hits p ∪ {[c]} = coords p)) as [Hall | Hnot].
    + split; [|done]. intros _. rewrite decide_True; [done|]. set_solver.
    + split; [done|]. intros _. exists p2. split; [done|]. split; [congruence | done].
  - rewrite receive_fire_None by done. simpl.
    rewrite (evolves_occupied_get_None _ _ _ Hwf Hev Hg). done.
Qed.

Lemma refire_outcome_witness :
  reachable demo_board ∧
  let s := (receive_fire demo_board (0, 0, 1)).1 in
  let b2 := fire_all (receive_fire demo_board (0, 0, 1)).2 [(1, 0, 1); (2, 0, 1); (3, 0, 1)] in
  (receive_fire b2 (0, 0, 1)).2 = b2 ∧
  (s ≠ HIT → (receive_fire b2 (0, 0, 1)).1 = s) ∧
  (s = HIT →
     ∃ p, occupied_get b2 (0, 0, 1) = Some p ∧ piece_type p = DESTROYER ∧
          (receive_fire b2 (0, 0, 1)).1 = if decide (hits p = coords p) then KILL else HIT).
Proof.
  split; [apply demo_board_reachable|].
  exact (refire_outcome demo_board (0, 0, 1) [(1, 0, 1); (2, 0, 1); (3, 0, 1)]
           demo_board_reachable).
Defined.

(** * The match *)

Section match_rules.
Implicit Types (self : Game) (b : Board3D) (c coord : Coordinate) (p : Piece).

(** A HIT comes from a Destroyer that still has a cell to be hit. *)
Lemma receive_fire_HIT b c :
  (receive_fire b c).1 = HIT →
  ∃ i p, occupied b !! c = Some i ∧ pieces b !! i = Some p ∧
         piece_type p = DESTROYER ∧ c ∈ coords p ∧ hits p ∪ {[c]} ≠ coords p.
Proof.
  unfold receive_fire.
  destruct (occupied b !! c) as [i|] eqn:Ho; [|done].
  destruct (pieces b !! i) as [p|] eqn:Hp; [|done].
  destruct (decide (c ∈ coords p)) as [Hin | Hout].
  - rewrite register_hit_hit by done. simpl. unfold single_hit_kill.
    destruct (piece_type p) eqn:Ht;
      [by rewrite bool_decide_eq_true_2 by set_solver | |
       by rewrite bool_decide_eq_true_2 by set_solver..].
    rewrite bool_decide_eq_false_2
      by (rewrite !elem_of_cons, elem_of_nil; naive_solver).
    case_decide; [done|]. intros _. by exists i, p.
  - by rewrite register_hit_miss.
Qed.

Lemma receive_fire_HIT_not_sunk b c :
  (receive_fire b c).1 = HIT →
  is_general (occupied_get b c) = false ∧
  all_non_general_sunk (receive_fire b c).2 = false.
Proof.
  intros Hhit. destruct (receive_fire_HIT _ _ Hhit) as (i & p & Ho & Hp & Ht & Hin & Hne).
  split.
  - unfold occupied_get. rewrite Ho. simpl. rewrite Hp. simpl.
    apply bool_decide_eq_false. by rewrite Ht.
  - rewrite (receive_fire_Some _ _ _ _ Ho Hp), register_hit_hit by done. simpl.
    apply not_true_is_false. unfold all_non_general_sunk. simpl.
    rewrite forallb_forall. intros Hall.
    set (p' := mkPiece (piece_type p) (coords p) (hits p ∪ {[c]})) in *.
    assert (In p' (<[i := p']> (pieces b))) as Hin'.
    { apply list_elem_of_In. eapply list_elem_of_lookup_2, list_lookup_insert_eq.
      by eapply lookup_lt_Some. }
    apply Hall, orb_prop in Hin' as [H1 | H2].
    + apply bool_decide_eq_true in H1. simpl in H1. congruence.
    + apply bool_decide_eq_true in H2. simpl in H2. done.
Qed.

Lemma at_player_set_eq {A} (seq : A * A) pl (v : A) :
  at_player (set_player seq pl v) pl = v.
Proof. by destruct pl. Qed.

Lemma at_player_set_other {A} (seq : A * A) pl (v : A) :
  at_player (set_player seq pl v) (other pl) = at_player seq (other pl).
Proof. by destruct pl. Qed.

Lemma at_player_set_other' {A} (seq : A * A) pl (v : A) :
  at_player (set_player seq (other pl) v) pl = at_player seq pl.
Proof. by destruct pl. Qed.

(** Hitting the General ends the match at once, whatever else floats. *)
Lemma command_hit_ends_match self coord p :
  reachable (at_player (boards self) (other (current self))) →
  coord ∉ at_player (shots self) (current self) →
  occupied_get (at_player (boards self) (other (current self))) coord = Some p →
  piece_type p = GENERAL →
  (fire self coord).1 = Won (current self).
Proof.
  intros Hwf%reachable_wf Hnew Hg Ht. unfold fire. rewrite decide_False by done.
  pose proof (wf_occupied_get _ _ _ Hwf Hg) as Hin.
  pose proof Hg as Hg'. apply occupied_get_Some in Hg' as (i & Ho & Hp).
  rewrite (receive_fire_Some _ _ _ _ Ho Hp), register_hit_hit by done.
  unfold single_hit_kill. rewrite Ht.
  rewrite bool_decide_eq_true_2 by set_solver.
  rewrite decide_False by done. rewrite Hg. simpl.
  by rewrite Ht, bool_decide_eq_true_2.
Qed.

(** A shot that is not a MISS and leaves [all_non_general_sunk] true ends
    the match. *)
Lemma all_sunk_ends_match self coord :
  coord ∉ at_player (shots self) (current self) →
  (receive_fire (at_player (boards self) (other (current self))) coord).1 ≠ MISS →
  all_non_general_sunk
    (receive_fire (at_player (boards self) (other (current self))) coord).2 = true →
  (fire self coord).1 = Won (current self).
Proof.
  intros Hnew Hsig Hsunk. unfold fire. rewrite decide_False by done.
  destruct (receive_fire _ coord) as [sig b']. simpl in *.
  rewrite decide_False by done. rewrite Hsunk. by destruct (is_general _).
Qed.

End match_rules.

(** C2.  A fire action at a coordinate the current player has not fired at
    records the coordinate in that player's shots, has the opponent's board
    resolve it and touches nothing else; on MISS the turn passes, on HIT the
    same player goes on, and on KILL the current player wins if the vessel
    found at the coordinate is the General or if [all_non_general_sunk] now
    holds on the opponent's board, and goes on otherwise.  A coordinate
    already among the current player's shots changes nothing. *)
Theorem fire_transition (self : Game) (coord : Coordinate) :
  let me := current self in
  let target := at_player (boards self) (other me) in
  let sig := (receive_fire target coord).1 in
  let target' := (receive_fire target coord).2 in
  let status := (fire self coord).1 in
  let self' := (fire self coord).2 in
  (coord ∉ at_player (shots self) me →
     at_player (shots self') me = at_player (shots self) me ∪ {[coord]} ∧
     at_player (shots self') (other me) = at_player (shots self) (other me) ∧
     at_player (boards self') (other me) = target' ∧
     at_player (boards self') me = at_player (boards self) me ∧
     match sig with
     | MISS => status = InProgress ∧ current self' = other me
     | HIT => status = InProgress ∧ current self' = me
     | KILL =>
         if is_general (occupied_get target coord) || all_non_general_sunk target'
         then status = Won me
         else status = InProgress ∧ current self' = me
     end) ∧
  (coord ∈ at_player (shots self) me → fire self coord = (InProgress, self)).
Proof.
  intros me target sig target' status self'.
  subst status self'. unfold fire. fold me. fold target. split.
  - intros Hnew. rewrite decide_False by done.
    pose proof (receive_fire_HIT_not_sunk target coord) as Hhit. fold sig target' in Hhit.
    assert (receive_fire target coord = (sig, target')) as -> by by destruct (receive_fire _ _).
    destruct sig.
    + rewrite decide_True by done. simpl.
      rewrite at_player_set_eq, at_player_set_other, at_player_set_eq, at_player_set_other'.
      done.
    + rewrite decide_False by done. destruct (Hhit eq_refl) as [-> ->]. simpl.
      rewrite at_player_set_eq, at_player_set_other, at_player_set_eq, at_player_set_other'.
      done.
    + rewrite decide_False by done.
      destruct (is_general (occupied_get target coord)); simpl;
        [|destruct (all_non_general_sunk target'); simpl];
        rewrite at_player_set_eq, at_player_set_other, at_player_set_eq, at_player_set_other';
        done.
  - intros Hold. by rewrite decide_True.
Qed.

Lemma sub_run_ok : sub_run = (inr (), (sub_board, sub_run.2.2)).
Proof. vm_compute. reflexivity. Qed.

(** C1: the failing input.  On the board with one Submarine and the General,
    the first player's shot at a cell of the Submarine returns KILL; every
    vessel other than the General is then destroyed in the spec's sense, yet
    [all_non_general_sunk] is false and the match goes on with the same
    player. *)
Theorem single_hit_kill_not_counted_as_sunk :
  let game := mkGame (demo_board, sub_board) (∅, ∅) Player0 in
  let shot := (0, 0, 0) in
  let sub_board' := (receive_fire sub_board shot).2 in
  sub_run.1 = inr () ∧
  (receive_fire sub_board shot).1 = KILL ∧
  forallb (λ p, bool_decide (piece_type p = GENERAL) || destroyed p) (pieces sub_board') = true ∧
  all_non_general_sunk sub_board' = false ∧
  (fire game shot).1 = InProgress ∧
  current (fire game shot).2 = Player0.
Proof. vm_compute. repeat split; reflexivity. Qed.

(** ** Rendering and the loop of [start] *)

Section match_loop.
Implicit Types (self : Game) (coord : Coordinate) (cmd : Command).

Lemma set_player_at {A} (seq : A * A) pl : set_player seq pl (at_player seq pl) = seq.
Proof. by destruct pl, seq. Qed.

Lemma other_involutive pl : other (other pl) = pl.
Proof. by destruct pl. Qed.

(** Resolving again a coordinate the player has fired at leaves the match
    as it is. *)
Lemma view_cell_unchanged self coord : game_inv self → (view_cell self coord).2 = self.
Proof.
  intros Hinv. unfold view_cell. case_decide as Hin; [|done].
  destruct (Hinv (current self)) as [Hwf Hrec].
  rewrite receive_fire_again by auto. simpl.
  rewrite set_player_at. by destruct self.
Qed.

Lemma _print_view_unchanged self : game_inv self → (_print_view self).2 = self.
Proof.
  intros Hinv. unfold _print_view.
  enough (∀ cells shown,
            (foldl (λ '(shown, g) coord,
                      let '(s, g') := view_cell g coord in (shown ++ [s], g'))
                   (shown, self) cells).2 = self) as H by apply H.
  induction cells as [|coord cells IH]; intros shown; [done|]. simpl.
  pose proof (view_cell_unchanged self coord Hinv) as Hcell.
  destruct (view_cell self coord) as [s g']. simpl in Hcell. subst g'. apply IH.
Qed.

Lemma fire_game_inv self coord : game_inv self → game_inv (fire self coord).2.
Proof.
  intros Hinv. unfold fire. case_decide as Hold; [done|].
  set (me := current self). set (target := at_player (boards self) (other me)).
  pose proof (receive_fire_wf target coord) as Hwf'.
  pose proof (receive_fire_recorded target coord) as Hrec'.
  pose proof (receive_fire_evolves target coord) as Hev.
  destruct (receive_fire target coord) as [sig target']. simpl in Hwf', Hrec', Hev.
  assert (∀ cur, game_inv (mkGame (set_player (boards self) (other me) target')
                             (set_player (shots self) me
                                (at_player (shots self) me ∪ {[coord]})) cur)) as Hnew.
  { intros cur pl. simpl. destruct (Hinv me) as [Hwf Hrec]. fold target in Hwf, Hrec.
    destruct (decide (pl = me)) as [-> | Hne].
    - rewrite !at_player_set_eq. split; [by apply Hwf'|].
      intros c [Hc | ->%elem_of_singleton]%elem_of_union.
      + eapply evolves_recorded; [exact Hev | by apply Hrec].
      + by apply Hrec'.
    - assert (pl = other me) as -> by by destruct pl, me.
      destruct (Hinv (other me)) as [Hwf2 Hrec2]. rewrite other_involutive in Hwf2, Hrec2.
      rewrite other_involutive, at_player_set_other', at_player_set_other. done. }
  repeat case_decide; repeat case_match; apply Hnew.
Qed.

Lemma Game_init_inv d rs cs counts g self g' :
  Game_init d rs cs counts g = (inr self, g') →
  game_inv self ∧ shots self = (∅, ∅) ∧ current self = Player0 ∧
  placed (at_player (boards self) Player0) ∧ placed (at_player (boards self) Player1).
Proof.
  unfold Game_init.
  destruct (place_all counts (Board3D_init d rs cs, g)) as [[e | []] [b0 g1]] eqn:H0; [done|].
  destruct (place_all counts (Board3D_init d rs cs, g1)) as [[e | []] [b1 g2]] eqn:H1; [done|].
  intros [= <- <-]. simpl.
  assert (placed b0) as Hp0 by (by exists d, rs, cs, counts, g, g1).
  assert (placed b1) as Hp1 by (by exists d, rs, cs, counts, g1, g2).
  split; [|done]. intros pl. split.
  - destruct pl; simpl; by apply placed_wf.
  - intros c Hc. destruct pl; simpl in Hc; by apply not_elem_of_empty in Hc.
Qed.

Lemma turn_game_inv self cmd : game_inv self → game_inv (turn self cmd).2.
Proof. destruct cmd; simpl; [done.. | apply fire_game_inv]. Qed.

(** In a match that [Game] has set up, rendering the view before each
    prompt does not disturb the state: the loop is the sequence of its
    turns. *)
Lemma start_turns self cmd rest :
  game_inv self →
  start self (cmd :: rest) =
  match turn self cmd with
  | (InProgress, self2) => start self2 rest
  | stopped => stopped
  end.
Proof. intros Hinv. simpl. by rewrite _print_view_unchanged. Qed.

Lemma start_game_inv self inputs : game_inv self → game_inv (start self inputs).2.
Proof.
  revert self. induction inputs as [|cmd rest IH]; intros self Hinv.
  - simpl. by rewrite _print_view_unchanged.
  - rewrite start_turns by done.
    pose proof (turn_game_inv self cmd Hinv) as Hturn.
    destruct (turn self cmd) as [[| |w] self2]; simpl in *; [by apply IH | done..].
Qed.

(** A shot repeated at the prompt is reported and the same player is asked
    again, with the match unchanged. *)
Lemma start_duplicate_shot self coord rest :
  game_inv self → coord ∈ at_player (shots self) (current self) →
  start self (Shot coord :: rest) = start self rest.
Proof.
  intros Hinv Hold. rewrite start_turns by done. simpl.
  unfold fire. by rewrite decide_True.
Qed.

End match_loop.

(** * Further properties of the shape library *)

Lemma size_set_map_inj `{Countable A, Countable B} (f : A → B) (X : gset A) :
  Inj (=) (=) f → size (set_map f X : gset B) = size X.
Proof.
  intros Hinj. unfold set_map. rewrite size_list_to_set.
  - by rewrite length_fmap.
  - apply NoDup_fmap_2; [done | apply NoDup_elements].
Qed.

Lemma list_to_set_fmap_set_map `{Countable A, Countable B} (f : A → B) (l : list A) :
  (list_to_set (f <$> l) : gset B) = set_map f (list_to_set l : gset A).
Proof.
  apply set_eq. intros y. rewrite elem_of_list_to_set, list_elem_of_fmap, elem_of_map.
  split; intros (x & -> & Hx); exists x; (split; [done|]).
  - by apply elem_of_list_to_set.
  - by apply elem_of_list_to_set in Hx.
Qed.

Lemma size_list_to_set_rot90 (l : list (Z * Z)) :
  size (list_to_set (rot90 l) : gset (Z * Z)) = size (list_to_set l : gset (Z * Z)).
Proof.
  unfold rot90. change (map ?f l) with (f <$> l).
  rewrite list_to_set_fmap_set_map. apply size_set_map_inj.
  intros [x y] [x' y'] [= ? ?]. f_equal; lia.
Qed.

Lemma size__normalize (l : list (Z * Z)) (V : gset (Z * Z)) :
  _normalize l = Some V → size V = size (list_to_set l : gset (Z * Z)).
Proof.
  unfold _normalize.
  destruct (py_min (map fst l)) as [mx|]; [|done].
  destruct (py_min (map snd l)) as [my|]; [|done]. simpl. intros [= <-].
  change (map ?f l) with (f <$> l).
  rewrite list_to_set_fmap_set_map. apply size_set_map_inj.
  intros [x y] [x' y'] [= ? ?]. f_equal; lia.
Qed.

Lemma translate_of_shift (l : list (Z * Z)) (dx dy : Z) : translate_of l (shift dx dy l) dx dy.
Proof.
  intros x y. unfold shift. change (map ?f l) with (f <$> l).
  rewrite list_elem_of_fmap. split.
  - intros ([a b] & [= -> ->] & Hin).
    by replace (a + dx - dx) with a by lia; replace (b + dy - dy) with b by lia.
  - intros Hin. exists (x - dx, y - dy). split; [f_equal; lia | done].
Qed.

Lemma _normalize_translate_of (l1 l2 : list (Z * Z)) (dx dy : Z) :
  translate_of l1 l2 dx dy → _normalize l2 = _normalize l1.
Proof.
  intros Ht. destruct (_normalize l1) as [V|] eqn:H1.
  - apply _normalize_normal_form. apply _normalize_normal_form in H1.
    by eapply normal_form_translate.
  - destruct l1 as [|p l1]; [|by destruct (_normalize_is_Some (p :: l1))].
    destruct l2 as [|[x y] l2]; [done|].
    specialize (Ht x y). destruct Ht as [Ht _].
    ospecialize (Ht _); [left|]. by apply elem_of_nil in Ht.
Qed.

(** X1.  [_normalize] and [_get_rotations] raise (the [ValueError] of [min]
    on an empty sequence) exactly on the empty list of offsets. *)
Theorem shape_functions_raise_iff_empty (offsets : list (Z * Z)) :
  (_normalize offsets = None ↔ offsets = []) ∧
  (_get_rotations offsets = None ↔ offsets = []).
Proof.
  split; split.
  - intros Hn. destruct offsets as [|p l]; [done|].
    destruct (_normalize_is_Some (p :: l)) as [V HV]; [done | congruence].
  - by intros ->.
  - intros Hn. destruct offsets as [|p l]; [done|].
    destruct (_get_rotations_unfold (p :: l)) as (? & ? & ? & ? & _ & _ & _ & _ & Hr);
      [done | congruence].
  - by intros ->.
Qed.

(** X2.  Normalizing is idempotent: the offsets of a normalized set
    normalize to the same set. *)
Theorem _normalize_idempotent (offsets : list (Z * Z)) (V : gset (Z * Z)) :
  _normalize offsets = Some V → _normalize (elements V) = Some V.
Proof.
  intros HV. rewrite <- HV. apply _normalize_normal_form in HV.
  destruct (normal_form_elements _ _ HV) as (dx & dy & Ht).
  by eapply _normalize_translate_of.
Qed.

Lemma _normalize_idempotent_witness :
  _normalize [(2, 5); (3, 7); (4, 5)] = Some (list_to_set [(0, 0); (1, 2); (2, 0)]) ∧
  _normalize (elements (list_to_set [(0, 0); (1, 2); (2, 0)] : gset (Z * Z))) =
    Some (list_to_set [(0, 0); (1, 2); (2, 0)]).
Proof.
  assert (_normalize [(2, 5); (3, 7); (4, 5)] = Some (list_to_set [(0, 0); (1, 2); (2, 0)]))
    as H by (vm_compute; reflexivity).
  split; [exact H | exact (_normalize_idempotent _ _ H)].
Defined.

(** X3.  [_normalize] forgets where a shape lies, and in what order and how
    often its offsets are listed: moving every offset by the same amount, or
    listing the same set of offsets differently, gives the same result. *)
Theorem _normalize_translation_invariant :
  (∀ offsets dx dy, _normalize (shift dx dy offsets) = _normalize offsets) ∧
  (∀ offsets1 offsets2,
     (list_to_set offsets1 : gset (Z * Z)) = list_to_set offsets2 →
     _normalize offsets1 = _normalize offsets2).
Proof.
  split.
  - intros l dx dy. eapply _normalize_translate_of, translate_of_shift.
  - intros l1 l2 Heq. apply (_normalize_translate_of l2 l1 0 0).
    intros x y. rewrite !Z.sub_0_r.
    by rewrite <- !(elem_of_list_to_set (C := gset (Z * Z))), Heq.
Qed.

(** X4.  Every variant [_get_rotations] returns has as many cells as the
    base shape has distinct offsets. *)
Theorem rotations_keep_size (base : list (Z * Z)) (configs : list (gset (Z * Z)))
    (V : gset (Z * Z)) :
  _get_rotations base = Some configs → V ∈ configs →
  size V = size (list_to_set base : gset (Z * Z)).
Proof.
  intros Hr HV. destruct base as [|p l]; [done|].
  destruct (_get_rotations_unfold (p :: l)) as (N0 & N1 & N2 & N3 & H0 & H1 & H2 & H3 & Hr');
    [done|].
  rewrite Hr' in Hr. injection Hr as <-. rewrite !elem_of_append_if_new in HV.
  destruct HV as [[[[HV | ->] | ->] | ->] | ->]; [by apply elem_of_nil in HV | ..].
  - by apply size__normalize.
  - apply size__normalize in H1. by rewrite H1, size_list_to_set_rot90.
  - apply size__normalize in H2. by rewrite H2, !size_list_to_set_rot90.
  - apply size__normalize in H3. by rewrite H3, !size_list_to_set_rot90.
Qed.

Lemma rotations_keep_size_witness :
  size (list_to_set [(0, 0); (0, 1)] : gset (Z * Z)) =
  size (list_to_set [(0, 0); (1, 0)] : gset (Z * Z)).
Proof.
  apply (rotations_keep_size [(0, 0); (1, 0)]
           [list_to_set [(0, 0); (1, 0)]; list_to_set [(0, 0); (0, 1)]]).
  - vm_compute. reflexivity.
  - right. left.
Defined.

(** * Further properties of the placement engine *)

Section placement_more.
Implicit Types (b : Board3D) (g : Random) (counts items : list (PieceType * Z)).

Lemma place_attempts_appends n ptype b g b' g' :
  place_attempts n ptype (b, g) = (inr (), (b', g')) →
  ∃ cs, pieces b' = pieces b ++ [mkPiece ptype cs ∅].
Proof.
  intros H. apply place_attempts_cases in H as [(_ & cs & z & _ & ->) | [[[=] _] | [[=] _]]].
  by exists cs.
Qed.

Lemma place_times_fleet n ptype b g b' g' :
  place_times n ptype (b, g) = (inr (), (b', g')) →
  map piece_type (pieces b') = map piece_type (pieces b) ++ replicate n ptype ∧
  (Forall (λ p, hits p = ∅) (pieces b) → Forall (λ p, hits p = ∅) (pieces b')).
Proof.
  revert b g. induction n as [|n IH]; intros b g; simpl.
  - unfold ret. intros [= <- <-]. by rewrite app_nil_r.
  - unfold bind. destruct (_place_random ptype (b, g)) as [[e | []] [b1 g1]] eqn:H1; [done|].
    intros [Hm Hh]%IH. apply place_attempts_appends in H1 as [cs H1].
    rewrite H1 in Hm, Hh. split.
    + rewrite Hm, map_app. simpl. by rewrite <- app_assoc.
    + intros Hb. apply Hh, Forall_app. split; [done|]. by constructor.
Qed.

Lemma place_items_fleet items b g b' g' :
  place_items items (b, g) = (inr (), (b', g')) →
  map piece_type (pieces b') = map piece_type (pieces b) ++ fleet items ∧
  (Forall (λ p, hits p = ∅) (pieces b) → Forall (λ p, hits p = ∅) (pieces b')).
Proof.
  revert b g. induction items as [|[ptype num] items IH]; intros b g; simpl.
  - unfold ret. intros [= <- <-]. by rewrite app_nil_r.
  - unfold bind.
    destruct (place_times (Z.to_nat num) ptype (b, g)) as [[e | []] [b1 g1]] eqn:H1; [done|].
    intros [Hm Hh]%IH. apply place_times_fleet in H1 as [Hm1 Hh1]. split.
    + rewrite Hm, Hm1. unfold fleet. simpl. by rewrite <- app_assoc.
    + intros Hb. by apply Hh, Hh1.
Qed.

Lemma place_times_error n ptype b g e s' :
  place_times n ptype (b, g) = (inl e, s') →
  (0 < n)%nat ∧ (e = RuntimeError ptype ∨ e = ValueError EmptyRange).
Proof.
  revert b g. induction n as [|n IH]; intros b g; simpl; [done|].
  unfold bind. destruct (_place_random ptype (b, g)) as [[e1 | []] [b1 g1]] eqn:H1.
  - intros [= -> <-]. split; [lia|].
    apply place_attempts_cases in H1 as [[[=] _] | [[[= ->] _] | [[= ->] _]]]; auto.
  - intros [_ H]%IH. split; [lia | done].
Qed.

Lemma place_items_error items b g e s' :
  place_items items (b, g) = (inl e, s') →
  e = ValueError EmptyRange ∨
  ∃ ptype num, (ptype, num) ∈ items ∧ 0 < num ∧ e = RuntimeError ptype.
Proof.
  revert b g. induction items as [|[ptype num] items IH]; intros b g; simpl; [done|].
  unfold bind.
  destruct (place_times (Z.to_nat num) ptype (b, g)) as [[e1 | []] [b1 g1]] eqn:H1.
  - intros [= -> <-]. apply place_times_error in H1 as [Hn [-> | ->]]; [|by left].
    right. exists ptype, num. split; [left|]. split; [lia | done].
  - intros [-> | (t & n & Hin & Hn & ->)]%IH; [by left|].
    right. exists t, n. split; [by right | done].
Qed.

Lemma _SHAPES_2D_within ptype :
  forallb (shape_within (longest_side ptype)) (_SHAPES_2D ptype) = true.
Proof. destruct ptype; vm_compute; reflexivity. Qed.

Lemma shape_max_below_side ptype shape max_dx max_dy :
  shape ∈ _SHAPES_2D ptype →
  py_max (map fst (elements shape)) = Some max_dx →
  py_max (map snd (elements shape)) = Some max_dy →
  max_dx < longest_side ptype ∧ max_dy < longest_side ptype.
Proof.
  intros Hs [Hx _]%py_max_spec [Hy _]%py_max_spec.
  pose proof (_SHAPES_2D_within ptype) as Hall. rewrite forallb_forall in Hall.
  apply list_elem_of_In, Hall in Hs. unfold shape_within in Hs.
  rewrite forallb_forall in Hs.
  apply elem_of_map_fst in Hx as [y Hxy]. apply elem_of_map_snd in Hy as [x Hxy'].
  apply list_elem_of_In, Hs, andb_prop in Hxy as [H1 _].
  apply list_elem_of_In, Hs, andb_prop in Hxy' as [_ H2].
  apply bool_decide_eq_true in H1, H2. done.
Qed.

(** On a layer that holds every variant of the type, no attempt hands an
    empty range to [randrange]. *)
Lemma place_attempts_no_empty_range n ptype b g :
  1 ≤ depth b → longest_side ptype ≤ rows b → longest_side ptype ≤ cols b →
  (place_attempts n ptype (b, g)).1 ≠ inl (ValueError EmptyRange).
Proof.
  intros Hd Hr Hc. revert g. induction n as [|n IH]; intros g; [done|].
  rewrite place_attempts_S.
  destruct (choice_nonempty (_SHAPES_2D ptype) g (_SHAPES_2D_nonempty ptype)) as [shape Hch].
  rewrite Hch. apply choice_elem_of in Hch as [Hs _].
  destruct (shape_max_is_Some _ _ Hs) as [[max_dx Hdx] [max_dy Hdy]].
  rewrite Hdx, Hdy.
  destruct (shape_max_below_side _ _ _ _ Hs Hdx Hdy) as [Hmx Hmy].
  destruct (decide (ptype = GENERAL)) as [Hg | Hg].
  - rewrite !randrange_pos by lia. by destruct (any_occupied _ _).
  - rewrite !randrange_pos by lia. by destruct (any_occupied _ _).
Qed.

Lemma place_times_no_empty_range n ptype b g :
  placement_inv b →
  1 ≤ depth b → longest_side ptype ≤ rows b → longest_side ptype ≤ cols b →
  (place_times n ptype (b, g)).1 ≠ inl (ValueError EmptyRange).
Proof.
  revert b g. induction n as [|n IH]; intros b g Hinv Hd Hr Hc; [done|]. simpl.
  unfold bind. pose proof (place_attempts_no_empty_range 1000 ptype b g Hd Hr Hc) as Hne.
  fold (_place_random ptype) in Hne.
  destruct (_place_random ptype (b, g)) as [[e | []] [b1 g1]] eqn:H1.
  - simpl in *. done.
  - apply _place_random_inv in H1 as (Hinv1 & (Hd1 & Hr1 & Hc1) & _); [|done].
    apply IH; [done | lia..].
Qed.

Lemma place_all_success_fleet d rs cs counts g b' g' :
  place_all counts (Board3D_init d rs cs, g) = (inr (), (b', g')) →
  map piece_type (pieces b') = fleet counts ∧
  Forall (λ p, hits p = ∅) (pieces b') ∧
  (depth b', rows b', cols b') = (d, rs, cs).
Proof.
  intros Hrun. pose proof Hrun as Hdims.
  apply place_all_inv in Hdims as [_ (Hd & Hr & Hc)]; [|apply placement_inv_init].
  simpl in Hd, Hr, Hc. rewrite place_all_unfold in Hrun.
  case_decide as Hg; [done|]. destruct (check_counts _ counts); [done|].
  apply place_items_fleet in Hrun as [Hm Hh]. simpl in Hm.
  split; [done|]. split; [by apply Hh | congruence].
Qed.

End placement_more.

(** X5.  A successful [place_all] on a fresh board places, in the order of
    the counts, as many vessels of each type as requested (none for a
    negative count), each without a hit, and keeps the dimensions the board
    was created with. *)
Theorem place_all_fleet (d rs cs : Z) (counts : list (PieceType * Z))
    (g : Random) (b' : Board3D) (g' : Random) :
  place_all counts (Board3D_init d rs cs, g) = (inr (), (b', g')) →
  map piece_type (pieces b') = fleet counts ∧
  Forall (λ p, hits p = ∅) (pieces b') ∧
  (depth b', rows b', cols b') = (d, rs, cs).
Proof. apply place_all_success_fleet. Qed.

Lemma place_all_fleet_witness :
  map piece_type (pieces demo_board) = fleet demo_counts ∧
  Forall (λ p, hits p = ∅) (pieces demo_board) ∧
  (depth demo_board, rows demo_board, cols demo_board) = (3, 5, 5).
Proof. exact (place_all_fleet 3 5 5 demo_counts _ _ _ demo_run_ok). Defined.

(** X6.  [place_all] on a fresh board ends in one of five ways: normally;
    with "Exactly one General required"; with "Cannot place ..." for a
    requested type and its packing bound; with the [RuntimeError] of
    [_place_random] for a type requested at least once; or with the
    [ValueError] of [randrange] on an empty range.  Whichever it is, the
    board keeps its dimensions and the vessels placed so far are indexed,
    disjoint and where [_place_random] puts them. *)
Theorem place_all_outcomes (d rs cs : Z) (counts : list (PieceType * Z)) (g : Random) :
  let run := place_all counts (Board3D_init d rs cs, g) in
  (run.1 = inr () ∨
   run.1 = inl InvalidConfiguration ∨
   (∃ ptype num, (ptype, num) ∈ counts ∧
                 run.1 = inl (CapacityExceeded ptype num (capacity rs cs ptype))) ∨
   (∃ ptype num, (ptype, num) ∈ counts ∧ 0 < num ∧ run.1 = inl (PlacementExhausted ptype)) ∨
   run.1 = inl (ValueError EmptyRange)) ∧
  placement_inv run.2.1 ∧
  same_dims (Board3D_init d rs cs) run.2.1.
Proof.
  intros run. split.
  - subst run. rewrite place_all_unfold. case_decide as Hg; [auto|].
    destruct (check_counts _ counts) as [e | []] eqn:Hcheck.
    + apply check_counts_inl in Hcheck as (ptype & num & Hin & _ & _ & ->).
      right; right; left. simpl. eauto.
    + destruct (place_items counts _) as [[e | []] s'] eqn:Hrun; [|auto].
      apply place_items_error in Hrun as [-> | (t & n & Hin & Hn & ->)]; simpl.
      * by repeat right.
      * right; right; right; left. eauto.
  - destruct run as [r [b' g']] eqn:Hrun. simpl.
    by eapply place_all_inv; [exact Hrun | apply placement_inv_init].
Qed.

(** X7.  When the board has a layer and every type requested at least once
    fits its layers in every orientation (3 x 3 for a Submarine, 4 x 4 for a
    Destroyer or a Jet, 1 x 1 for the General), [place_all] never ends with
    the [ValueError] of [randrange]: the only way placement itself can fail
    is by using up the attempts. *)
Theorem place_all_no_empty_range (d rs cs : Z) (counts : list (PieceType * Z)) (g : Random) :
  1 ≤ d →
  (∀ ptype num, (ptype, num) ∈ counts → 0 < num →
                longest_side ptype ≤ rs ∧ longest_side ptype ≤ cs) →
  (place_all counts (Board3D_init d rs cs, g)).1 ≠ inl (ValueError EmptyRange).
Proof.
  intros Hd Hfit. rewrite place_all_unfold. case_decide as Hg; [done|].
  destruct (check_counts _ counts) as [e | []] eqn:Hcheck.
  { by apply check_counts_inl in Hcheck as (? & ? & _ & _ & _ & ->). }
  assert (∀ items b g0,
            placement_inv b → depth b = d → rows b = rs → cols b = cs →
            (∀ ptype num, (ptype, num) ∈ items → 0 < num →
                          longest_side ptype ≤ rs ∧ longest_side ptype ≤ cs) →
            (place_items items (b, g0)).1 ≠ inl (ValueError EmptyRange)) as Hitems.
  { induction items as [|[ptype num] items IH];
      intros b g0 Hinv Hdb Hrb Hcb Hfit'; [done|]. simpl. unfold bind.
    destruct (place_times (Z.to_nat num) ptype (b, g0)) as [[e | []] [b1 g1]] eqn:H1.
    - simpl. intros [= ->].
      pose proof H1 as [Hn _]%place_times_error.
      destruct (Hfit' ptype num) as [Hfr Hfc]; [left | lia |].
      eapply (place_times_no_empty_range (Z.to_nat num) ptype b g0); [done | lia.. |].
      by rewrite H1.
    - apply place_times_inv in H1 as (Hinv1 & (Hd1 & Hr1 & Hc1) & _); [|done].
      apply IH; [done | congruence.. |]. intros t n Hin. apply Hfit'. by right. }
  apply Hitems; [apply placement_inv_init | done..].
Qed.

Lemma place_all_no_empty_range_witness :
  1 ≤ 3 ∧
  (∀ ptype num, (ptype, num) ∈ demo_counts → 0 < num →
                longest_side ptype ≤ 5 ∧ longest_side ptype ≤ 5) ∧
  demo_run.1 ≠ inl (ValueError EmptyRange).
Proof.
  assert (∀ ptype num, (ptype, num) ∈ demo_counts → 0 < num →
                       longest_side ptype ≤ 5 ∧ longest_side ptype ≤ 5) as Hfit.
  { intros ptype num _ _. destruct ptype; simpl; lia. }
  split; [lia|]. split; [exact Hfit|].
  exact (place_all_no_empty_range 3 5 5 demo_counts _ ltac:(lia) Hfit).
Defined.

(** * Further properties of fire resolution *)

Lemma sub_board_placed : placed sub_board.
Proof. exists 3, 5, 5, [(SUBMARINE, 1); (GENERAL, 1)]. eexists _, _. exact sub_run_ok. Qed.

Lemma sub_board_reachable : reachable sub_board.
Proof. exists sub_board, []. split; [apply sub_board_placed | done]. Qed.

Lemma sub_board_pieces :
  pieces sub_board =
  [mkPiece SUBMARINE (list_to_set [(0, 0, 0); (1, 0, 0); (2, 0, 0)]) ∅;
   mkPiece GENERAL {[ (4, 4, 0) ]} ∅].
Proof. vm_compute. reflexivity. Qed.

Section fire_more.
Implicit Types (b : Board3D) (c : Coordinate) (p : Piece) (fired : list Coordinate).

Lemma wf_covered b c p i :
  wf_board b → pieces b !! i = Some p → c ∈ coords p → occupied b !! c = Some i.
Proof. intros [Hocc _] Hp Hc. apply Hocc. eauto. Qed.

Lemma wf_uncovered b c :
  wf_board b → (∀ p, p ∈ pieces b → c ∉ coords p) → occupied b !! c = None.
Proof.
  intros [Hocc _] Hno. destruct (occupied b !! c) as [i|] eqn:Ho; [|done].
  apply Hocc in Ho as (p & Hp & Hc). exfalso.
  eapply Hno; [by eapply list_elem_of_lookup_2 | done].
Qed.

Lemma receive_fire_uncovered b c : occupied b !! c = None → receive_fire b c = (MISS, b).
Proof. intros Ho. unfold receive_fire. by rewrite Ho. Qed.

Lemma single_hit_kill_DESTROYER : single_hit_kill DESTROYER = false.
Proof.
  apply bool_decide_eq_false. rewrite !elem_of_cons, elem_of_nil. naive_solver.
Qed.

Lemma receive_fire_covered_not_miss b c p i :
  wf_board b → pieces b !! i = Some p → c ∈ coords p → (receive_fire b c).1 ≠ MISS.
Proof.
  intros Hwf Hp Hc. pose proof (wf_covered _ _ _ _ Hwf Hp Hc) as Ho.
  rewrite (receive_fire_Some _ _ _ _ Ho Hp), register_hit_hit by done. simpl.
  destruct (single_hit_kill _); [done|]. by case_decide.
Qed.

(** What a vessel placed by [_place_random] occupies lies on the board. *)
Lemma well_placed_bounds d rs cs p x y z :
  well_placed d rs cs p → (x, y, z) ∈ coords p →
  0 ≤ x < cs ∧ 0 ≤ y < rs ∧ 0 ≤ z ∧ (3 ≤ d → z < d).
Proof.
  intros (shape & x0 & y0 & z0 & _ & Hcoords & Hbox & Hz) Hc.
  rewrite Hcoords in Hc. apply elem_of_absolute_coords in Hc as (dx & dy & Hin & [= -> -> ->]).
  apply Hbox in Hin as [Hx Hy]. split; [done|]. split; [done|].
  case_decide as Hg; [lia|].
  assert (1 ≤ value (piece_type p) ≤ 3) by (destruct (piece_type p); [simpl; lia.. | done]).
  lia.
Qed.

Lemma fire_all_recorded b fired c :
  wf_board b → c ∈ fired → recorded c (fire_all b fired).
Proof.
  revert b. induction fired as [|c0 fired IH]; intros b Hwf Hc.
  { by apply elem_of_nil in Hc. }
  simpl. apply elem_of_cons in Hc as [-> | Hc].
  - eapply evolves_recorded; [apply fire_all_evolves | by apply receive_fire_recorded].
  - apply IH; [by apply receive_fire_wf | done].
Qed.

Lemma evolves_lookup_back b b' i p' :
  evolves b b' → pieces b' !! i = Some p' →
  ∃ p, pieces b !! i = Some p ∧ piece_type p' = piece_type p ∧
       coords p' = coords p ∧ hits p ⊆ hits p'.
Proof.
  intros (_ & _ & Hlen & Hps) Hp'.
  destruct (pieces b !! i) as [p|] eqn:Hp.
  - destruct (Hps _ _ Hp) as (q & Hq & H). exists p. split; [done|]. congruence.
  - apply lookup_ge_None in Hp. apply lookup_lt_Some in Hp'. lia.
Qed.

End fire_more.

(** X8.  On a board reachable after placement, [receive_fire] returns MISS
    exactly when no vessel occupies the coordinate, and a MISS leaves the
    board as it was. *)
Theorem receive_fire_miss_iff (b : Board3D) (c : Coordinate) :
  reachable b →
  ((receive_fire b c).1 = MISS ↔ ∀ p, p ∈ pieces b → c ∉ coords p) ∧
  ((receive_fire b c).1 = MISS → (receive_fire b c).2 = b).
Proof.
  intros Hwf%reachable_wf.
  assert ((receive_fire b c).1 = MISS → ∀ p, p ∈ pieces b → c ∉ coords p) as Hmiss.
  { intros Hm p [i Hp]%list_elem_of_lookup Hc.
    by apply (receive_fire_covered_not_miss _ _ _ _ Hwf Hp Hc). }
  split; [split; [done|]|].
  - intros Hno. by rewrite receive_fire_uncovered by by apply wf_uncovered.
  - intros Hm. pose proof (Hmiss Hm) as Hno.
    by rewrite receive_fire_uncovered by by apply wf_uncovered.
Qed.

Lemma receive_fire_miss_iff_witness :
  reachable sub_board ∧
  ((receive_fire sub_board (3, 3, 1)).1 = MISS ↔
   ∀ p, p ∈ pieces sub_board → (3, 3, 1) ∉ coords p) ∧
  ((receive_fire sub_board (3, 3, 1)).1 = MISS →
   (receive_fire sub_board (3, 3, 1)).2 = sub_board).
Proof.
  split; [apply sub_board_reachable|].
  exact (receive_fire_miss_iff sub_board (3, 3, 1) sub_board_reachable).
Defined.

(** X9.  After a successful placement on a board of three layers or more, a
    shot at a coordinate outside the board, at any point of the match, is a
    MISS that changes nothing: [Game.start] does not check the range of the
    coordinate it parses and does not have to. *)
Theorem out_of_bounds_shot_misses (d rs cs : Z) (counts : list (PieceType * Z))
    (g : Random) (b : Board3D) (g' : Random) (fired : list Coordinate) (x y z : Z) :
  place_all counts (Board3D_init d rs cs, g) = (inr (), (b, g')) →
  3 ≤ d →
  ¬ (0 ≤ x < cs ∧ 0 ≤ y < rs ∧ 0 ≤ z < d) →
  receive_fire (fire_all b fired) (x, y, z) = (MISS, fire_all b fired).
Proof.
  intros Hrun Hd Hout.
  apply place_all_inv in Hrun as [[Hwf Hwp] (Hdb & Hrb & Hcb)]; [|apply placement_inv_init].
  simpl in Hdb, Hrb, Hcb.
  apply receive_fire_uncovered.
  destruct (fire_all_evolves b fired) as (_ & -> & _).
  apply wf_uncovered; [done|]. intros p Hp Hc.
  apply Hwp in Hp. rewrite Hdb, Hrb, Hcb in Hp.
  destruct (well_placed_bounds _ _ _ _ _ _ _ Hp Hc) as (? & ? & ? & Hz). apply Hout.
  split; [done|]. split; [done|]. split; [done | by apply Hz].
Qed.

Lemma out_of_bounds_shot_misses_witness :
  3 ≤ 3 ∧ ¬ (0 ≤ 5 < 5 ∧ 0 ≤ 0 < 5 ∧ 0 ≤ 0 < 3) ∧
  receive_fire (fire_all demo_board [(0, 0, 0)]) (5, 0, 0) =
  (MISS, fire_all demo_board [(0, 0, 0)]).
Proof.
  split; [lia|]. split; [lia|].
  exact (out_of_bounds_shot_misses 3 5 5 demo_counts _ _ _ [(0, 0, 0)] 5 0 0
           demo_run_ok ltac:(lia) ltac:(lia)).
Defined.

(** X10.  Firing never moves, adds or removes a vessel: after any sequence
    of calls of [receive_fire] the board has the same dimensions and the
    same index, its vessels have the same types and cells in the same order,
    and no hit has been lost. *)
Theorem fire_all_keeps_fleet (b : Board3D) (fired : list Coordinate) :
  let b' := fire_all b fired in
  (depth b', rows b', cols b') = (depth b, rows b, cols b) ∧
  occupied b' = occupied b ∧
  map piece_type (pieces b') = map piece_type (pieces b) ∧
  map coords (pieces b') = map coords (pieces b) ∧
  ∀ i p p', pieces b !! i = Some p → pieces b' !! i = Some p' → hits p ⊆ hits p'.
Proof.
  intros b'. pose proof (fire_all_evolves b fired) as Hev. fold b' in Hev.
  pose proof Hev as ((Hd & Hr & Hc) & Ho & Hlen & Hps).
  split; [congruence|]. split; [done|].
  assert (∀ {A} (f : Piece → A),
            (∀ p p', piece_type p' = piece_type p → coords p' = coords p → f p' = f p) →
            map f (pieces b') = map f (pieces b)) as Hmap.
  { intros A f Hf. apply list_eq. intros i.
    change (map f ?l) with (f <$> l). rewrite !list_lookup_fmap.
    destruct (pieces b' !! i) as [p'|] eqn:Hp'.
    - destruct (evolves_lookup_back _ _ _ _ Hev Hp') as (p & -> & Ht & Hcs & _).
      simpl. f_equal. by apply Hf.
    - apply lookup_ge_None in Hp'. rewrite Hlen in Hp'.
      apply lookup_ge_None in Hp'. by rewrite Hp'. }
  split; [by apply Hmap|]. split; [by apply Hmap|].
  intros i p p' Hp Hp'. destruct (Hps _ _ Hp) as (q & Hq & _ & _ & Hsub).
  rewrite Hq in Hp'. by injection Hp' as <-.
Qed.

(** X11.  On a board reachable after placement, once every cell of every
    vessel other than the General has been fired at, in any order and among
    any other shots, [all_non_general_sunk] holds. *)
Theorem firing_every_cell_sinks_all (b : Board3D) (fired : list Coordinate) :
  reachable b →
  (∀ p c, p ∈ pieces b → piece_type p ≠ GENERAL → c ∈ coords p → c ∈ fired) →
  all_non_general_sunk (fire_all b fired) = true.
Proof.
  intros Hwf%reachable_wf Hall.
  pose proof (fire_all_evolves b fired) as Hev.
  pose proof (fire_all_wf b fired Hwf) as Hwf2.
  unfold all_non_general_sunk. apply forallb_forall.
  intros p2 [i Hp2]%list_elem_of_In%list_elem_of_lookup.
  destruct (evolves_lookup_back _ _ _ _ Hev Hp2) as (p & Hp & Ht & Hcs & _).
  destruct (decide (piece_type p2 = GENERAL)) as [Hg | Hg].
  { by rewrite bool_decide_eq_true_2. }
  rewrite bool_decide_eq_false_2 by done. simpl. apply bool_decide_eq_true.
  apply set_eq. intros c. split.
  - destruct Hwf2 as [_ Hhits]. apply Hhits. by eapply list_elem_of_lookup_2.
  - intros Hc.
    assert (c ∈ fired) as Hf.
    { apply (Hall p); [by eapply list_elem_of_lookup_2 | congruence | by rewrite <- Hcs]. }
    apply (fire_all_recorded b fired c Hwf Hf). apply occupied_get_Some.
    exists i. split; [by eapply wf_covered | done].
Qed.

Lemma firing_every_cell_sinks_all_witness :
  reachable sub_board ∧
  all_non_general_sunk (fire_all sub_board [(2, 0, 0); (0, 0, 0); (3, 3, 1); (1, 0, 0)]) = true.
Proof.
  split; [apply sub_board_reachable|].
  apply (firing_every_cell_sinks_all sub_board _ sub_board_reachable).
  intros p c Hp Ht Hc. rewrite sub_board_pieces in Hp.
  apply elem_of_cons in Hp as [-> | Hp].
  - simpl in Hc. set_unfold. naive_solver.
  - apply list_elem_of_singleton in Hp as ->. done.
Defined.

(** X12.  On a board reachable after placement, [all_non_general_sunk] stays
    true once it is true, whatever is fired afterwards. *)
Theorem all_non_general_sunk_stable (b : Board3D) (fired : list Coordinate) :
  reachable b → all_non_general_sunk b = true →
  all_non_general_sunk (fire_all b fired) = true.
Proof.
  intros Hwf%reachable_wf Hsunk.
  pose proof (fire_all_evolves b fired) as Hev.
  pose proof (fire_all_wf b fired Hwf) as [_ Hhits2].
  unfold all_non_general_sunk in *. rewrite forallb_forall in Hsunk. apply forallb_forall.
  intros p2 [i Hp2]%list_elem_of_In%list_elem_of_lookup.
  destruct (evolves_lookup_back _ _ _ _ Hev Hp2) as (p & Hp & Ht & Hcs & Hsub).
  apply list_elem_of_lookup_2, list_elem_of_In, Hsunk, orb_prop in Hp as [Hg | Hfull].
  - apply bool_decide_eq_true in Hg. rewrite bool_decide_eq_true_2 by congruence. done.
  - apply bool_decide_eq_true in Hfull. apply orb_true_intro. right.
    apply bool_decide_eq_true.
    assert (hits p2 ⊆ coords p2) by (apply Hhits2; by eapply list_elem_of_lookup_2).
    set_solver.
Qed.

Lemma all_non_general_sunk_stable_witness :
  reachable (fire_all sub_board [(0, 0, 0); (1, 0, 0); (2, 0, 0)]) ∧
  all_non_general_sunk (fire_all sub_board [(0, 0, 0); (1, 0, 0); (2, 0, 0)]) = true ∧
  all_non_general_sunk
    (fire_all (fire_all sub_board [(0, 0, 0); (1, 0, 0); (2, 0, 0)]) [(4, 4, 0); (1, 1, 1)])
  = true.
Proof.
  assert (reachable (fire_all sub_board [(0, 0, 0); (1, 0, 0); (2, 0, 0)])) as Hr.
  { exists sub_board, [(0, 0, 0); (1, 0, 0); (2, 0, 0)]. split; [apply sub_board_placed | done]. }
  assert (all_non_general_sunk (fire_all sub_board [(0, 0, 0); (1, 0, 0); (2, 0, 0)]) = true)
    as Hs by (vm_compute; reflexivity).
  split; [exact Hr|]. split; [exact Hs|].
  exact (all_non_general_sunk_stable _ [(4, 4, 0); (1, 1, 1)] Hr Hs).
Defined.

Lemma demo_destroyer_lookup : pieces demo_board !! 1%nat = Some demo_destroyer.
Proof. vm_compute. reflexivity. Qed.

(** The induction behind X13, on a well-formed board. *)
Lemma destroyer_sequence_wf (cells : list Coordinate) (b : Board3D) (i : nat) (p : Piece) :
  wf_board b → pieces b !! i = Some p → piece_type p = DESTROYER →
  NoDup cells → cells ≠ [] → list_to_set cells = coords p ∖ hits p →
  fire_signals b cells = replicate (length cells - 1) HIT ++ [KILL].
Proof.
  revert b p. induction cells as [|c rest IH]; intros b p Hwf Hp Ht Hnd Hne Hset; [done|].
  apply NoDup_cons in Hnd as [Hc Hnd].
  assert (c ∈ coords p ∧ c ∉ hits p) as [Hin Hnh].
  { apply elem_of_difference. rewrite <- Hset. set_solver. }
  assert (hits p ⊆ coords p) as Hsub.
  { destruct Hwf as [_ Hhits]. apply Hhits. by eapply list_elem_of_lookup_2. }
  assert ((list_to_set rest : gset Coordinate) = coords p ∖ (hits p ∪ {[c]})) as Hrest.
  { apply set_eq. intros c'. rewrite elem_of_list_to_set, elem_of_difference, elem_of_union,
      elem_of_singleton.
    assert (c' ∈ (list_to_set (c :: rest) : gset Coordinate) ↔ c' ∈ coords p ∖ hits p) as Hc'
      by by rewrite Hset.
    rewrite elem_of_list_to_set, elem_of_cons, elem_of_difference in Hc'.
    split.
    - intros Hr. destruct Hc' as [Hc' _]. destruct Hc' as [? ?]; [by right|].
      split; [done|]. intros [? | ->]; done.
    - intros [Hcp Hno]. destruct Hc' as [_ Hc'].
      destruct Hc' as [-> | ?]; [split; [done|]; intros ?; apply Hno; by left | | done].
      exfalso. apply Hno. by right. }
  pose proof (wf_covered _ _ _ _ Hwf Hp Hin) as Ho.
  pose proof (receive_fire_wf b c Hwf) as Hwf1.
  cbn [fire_signals]. rewrite (receive_fire_Some _ _ _ _ Ho Hp) in *.
  rewrite register_hit_hit in * by done. cbn [fst snd] in *.
  replace (single_hit_kill (piece_type p)) with false
    by (by rewrite Ht, single_hit_kill_DESTROYER).
  destruct rest as [|c1 rest'].
  - simpl. rewrite decide_True; [done|].
    apply set_eq. intros c'. split; [set_solver|]. intros Hc'.
    destruct (decide (c' ∈ hits p ∪ {[c]})) as [? | Hno]; [done|].
    assert (c' ∈ (list_to_set [] : gset Coordinate)) as Hf by (rewrite Hrest; set_solver).
    set_solver.
  - rewrite decide_False.
    2:{ intros Heq. assert (c1 ∈ coords p ∖ (hits p ∪ {[c]})) as Hc1
          by (rewrite <- Hrest; set_solver).
        set_solver. }
    erewrite IH; [| exact Hwf1 | | | done | discriminate | ].
    + cbn [length]. replace (S (S (length rest')) - 1)%nat with (S (length rest')) by lia.
      replace (S (length rest') - 1)%nat with (length rest') by lia. done.
    + cbn [pieces]. apply list_lookup_insert_eq. by eapply lookup_lt_Some.
    + done.
    + done.
Qed.

(** X13.  On a board reachable after placement, firing at exactly the cells
    of a Destroyer that are not yet hit, each once and in any order, returns
    HIT for every shot but the last and KILL for the last. *)
Theorem destroyer_sequence (b : Board3D) (i : nat) (p : Piece) (cells : list Coordinate) :
  reachable b → pieces b !! i = Some p → piece_type p = DESTROYER →
  NoDup cells → cells ≠ [] → list_to_set cells = coords p ∖ hits p →
  fire_signals b cells = replicate (length cells - 1) HIT ++ [KILL].
Proof. intros Hwf%reachable_wf. by apply destroyer_sequence_wf. Qed.

Lemma destroyer_sequence_witness :
  fire_signals demo_board [(2, 0, 1); (0, 0, 1); (3, 0, 1); (1, 0, 1)] = [HIT; HIT; HIT; KILL].
Proof.
  apply (destroyer_sequence demo_board 1 demo_destroyer
           [(2, 0, 1); (0, 0, 1); (3, 0, 1); (1, 0, 1)]).
  - apply demo_board_reachable.
  - apply demo_destroyer_lookup.
  - reflexivity.
  - repeat (apply NoDup_cons; split; [set_solver|]). apply NoDup_nil_2.
  - discriminate.
  - vm_compute. reflexivity.
Defined.

(** * Further properties of the match *)

Lemma demo_game_init :
  Game_init 3 5 5 demo_counts (tape demo_game_draws) =
  (inr demo_game, (Game_init 3 5 5 demo_counts (tape demo_game_draws)).2).
Proof. vm_compute. reflexivity. Qed.

Lemma demo_game_inv : game_inv demo_game.
Proof. by destruct (Game_init_inv _ _ _ _ _ _ _ demo_game_init) as [H _]. Qed.

Section match_more.
Implicit Types (self : Game) (coord : Coordinate) (cmd : Command) (b : Board3D).

(** One cell of the view: what is shown, with the match untouched. *)
Lemma view_cell_shown self coord :
  game_inv self →
  view_cell self coord =
  (if decide (coord ∈ at_player (shots self) (current self))
   then Some (receive_fire (at_player (boards self) (other (current self))) coord).1
   else None, self).
Proof.
  intros Hinv. pose proof (view_cell_unchanged self coord Hinv) as Hsame.
  unfold view_cell in *. case_decide; [|done].
  destruct (receive_fire _ coord) as [sig b']. simpl in *. by rewrite Hsame.
Qed.

Lemma length_range n : length (range n) = Z.to_nat n.
Proof. unfold range. by rewrite length_map, length_seq. Qed.

Lemma length_bind_const {A B} (f : A → list B) (l : list A) (k : nat) :
  (∀ a, length (f a) = k) → length (l ≫= f) = (length l * k)%nat.
Proof.
  intros Hf. induction l as [|a l IH]; [done|].
  rewrite bind_cons, length_app, Hf, IH. simpl. lia.
Qed.

Lemma length_view_cells self :
  length (view_cells self) =
  (Z.to_nat (depth (boards self).1) * (Z.to_nat (rows (boards self).1) *
                                        Z.to_nat (cols (boards self).1)))%nat.
Proof.
  unfold view_cells. simpl.
  rewrite (length_bind_const _ _ (Z.to_nat (rows (boards self).1) *
                                  Z.to_nat (cols (boards self).1))), length_range; [done|].
  intros z. rewrite (length_bind_const _ _ (Z.to_nat (cols (boards self).1))), length_range;
    [done|].
  intros y. rewrite (length_bind_const _ _ 1), length_range; [lia | done].
Qed.

(** A win comes from the shot just fired: it hit the General or left
    [all_non_general_sunk] true on the opponent's board. *)
Lemma fire_Won self coord w :
  (fire self coord).1 = Won w →
  w = current self ∧ current (fire self coord).2 = w ∧
  (general_hit (at_player (boards (fire self coord).2) (other w)) ∨
   all_non_general_sunk (at_player (boards (fire self coord).2) (other w)) = true).
Proof.
  unfold fire. case_decide as Hold; [done|].
  set (target := at_player (boards self) (other (current self))).
  destruct (occupied_get target coord) as [p|] eqn:Hg; simpl.
  - pose proof Hg as (i & Ho & Hp)%occupied_get_Some.
    rewrite (receive_fire_Some _ _ _ _ Ho Hp).
    case_decide as Hmiss; [done|]. simpl in Hmiss.
    destruct (bool_decide (piece_type p = GENERAL)) eqn:Hgen.
    + simpl. intros [= <-]. split; [done|]. split; [done|]. left.
      rewrite at_player_set_eq. apply bool_decide_eq_true in Hgen.
      assert (coord ∈ coords p) as Hin.
      { destruct (decide (coord ∈ coords p)) as [? | Hout]; [done|].
        by rewrite register_hit_miss in Hmiss. }
      rewrite register_hit_hit by done. simpl.
      exists (mkPiece (piece_type p) (coords p) (hits p ∪ {[coord]})).
      split; [|split; [done | simpl; set_solver]].
      eapply list_elem_of_lookup_2, list_lookup_insert_eq. by eapply lookup_lt_Some.
    + destruct (all_non_general_sunk _) eqn:Hsunk; [|done].
      simpl. intros [= <-]. split; [done|]. split; [done|]. right.
      by rewrite at_player_set_eq.
  - destruct (receive_fire target coord) as [sig target'] eqn:Hr.
    case_decide as Hmiss; [done|].
    destruct (all_non_general_sunk target') eqn:Hsunk; [|done].
    simpl. intros [= <-]. split; [done|]. split; [done|]. right.
    by rewrite at_player_set_eq.
Qed.

(** A fire action forgets no shot and only adds hits to the boards. *)
Lemma fire_monotone self coord pl :
  at_player (shots self) pl ⊆ at_player (shots (fire self coord).2) pl ∧
  evolves (at_player (boards self) pl) (at_player (boards (fire self coord).2) pl).
Proof.
  unfold fire. case_decide as Hold; [split; [done | apply evolves_refl]|].
  set (me := current self). set (target := at_player (boards self) (other me)).
  pose proof (receive_fire_evolves target coord) as Hev.
  destruct (receive_fire target coord) as [sig target']. simpl in Hev.
  assert (∀ cur, let g := mkGame (set_player (boards self) (other me) target')
                            (set_player (shots self) me
                               (at_player (shots self) me ∪ {[coord]})) cur in
            at_player (shots self) pl ⊆ at_player (shots g) pl ∧
            evolves (at_player (boards self) pl) (at_player (boards g) pl)) as Hnew.
  { intros cur. simpl. destruct (decide (pl = me)) as [-> | Hne].
    - rewrite at_player_set_eq, at_player_set_other'. split; [set_solver | apply evolves_refl].
    - assert (pl = other me) as -> by by destruct pl, me.
      rewrite at_player_set_other, at_player_set_eq. done. }
  repeat case_decide; repeat case_match; apply Hnew.
Qed.

End match_more.

(** X14.  [Game(depth, rows, cols, counts)]: when the counts do not ask for
    exactly one General the constructor raises before any random draw;
    when it returns, both boards have been placed with the dimensions and
    the fleet asked for, no vessel is hit, no shot is on record and the
    first player is to move. *)
Theorem Game_init_spec (d rs cs : Z) (counts : list (PieceType * Z)) (g : Random) :
  (counts_get counts GENERAL 0 ≠ 1 →
   Game_init d rs cs counts g = (inl InvalidConfiguration, g)) ∧
  (∀ self g', Game_init d rs cs counts g = (inr self, g') →
     shots self = (∅, ∅) ∧ current self = Player0 ∧
     ∀ pl, placed (at_player (boards self) pl) ∧
           (depth (at_player (boards self) pl), rows (at_player (boards self) pl),
            cols (at_player (boards self) pl)) = (d, rs, cs) ∧
           map piece_type (pieces (at_player (boards self) pl)) = fleet counts ∧
           Forall (λ p, hits p = ∅) (pieces (at_player (boards self) pl))).
Proof.
  split.
  - intros Hg. unfold Game_init. rewrite place_all_unfold. by rewrite decide_True.
  - intros self g'. unfold Game_init.
    destruct (place_all counts (Board3D_init d rs cs, g)) as [[e | []] [b0 g1]] eqn:H0; [done|].
    destruct (place_all counts (Board3D_init d rs cs, g1)) as [[e | []] [b1 g2]] eqn:H1; [done|].
    intros [= <- <-]. simpl. split; [done|]. split; [done|].
    intros pl. destruct pl; simpl.
    + split; [by exists d, rs, cs, counts, g, g1|].
      by destruct (place_all_success_fleet _ _ _ _ _ _ _ H0) as (? & ? & ?).
    + split; [by exists d, rs, cs, counts, g1, g2|].
      by destruct (place_all_success_fleet _ _ _ _ _ _ _ H1) as (? & ? & ?).
Qed.

(** X15.  In a match set up by [Game] and played through [start],
    [_print_view] leaves the match as it is, although it calls
    [receive_fire] again for every coordinate the player has fired at; it
    shows one entry for every cell of the board, ['.'] for a cell not fired
    at and otherwise the signal [receive_fire] gives now. *)
Theorem _print_view_spec (self : Game) :
  game_inv self →
  (_print_view self).2 = self ∧
  (_print_view self).1 =
    map (λ coord,
           if decide (coord ∈ at_player (shots self) (current self))
           then Some (receive_fire (at_player (boards self) (other (current self))) coord).1
           else None)
        (view_cells self) ∧
  length (_print_view self).1 =
    (Z.to_nat (depth (boards self).1) * (Z.to_nat (rows (boards self).1) *
                                          Z.to_nat (cols (boards self).1)))%nat.
Proof.
  intros Hinv.
  set (shown_at := λ coord,
         if decide (coord ∈ at_player (shots self) (current self))
         then Some (receive_fire (at_player (boards self) (other (current self))) coord).1
         else None).
  assert (∀ cells shown,
            foldl (λ '(shown, g) coord,
                     let '(s, g') := view_cell g coord in (shown ++ [s], g'))
                  (shown, self) cells = (shown ++ map shown_at cells, self)) as Hfold.
  { induction cells as [|coord cells IH]; intros shown; simpl.
    - by rewrite app_nil_r.
    - rewrite view_cell_shown by done. fold (shown_at coord).
      rewrite IH. by rewrite <- app_assoc. }
  unfold _print_view. rewrite Hfold. simpl. split; [done|]. split; [done|].
  by rewrite length_map, length_view_cells.
Qed.

Lemma _print_view_spec_witness :
  game_inv demo_game_fired ∧
  at_player (shots demo_game_fired) (current demo_game_fired) =
    {[ (0, 0, 0); (0, 0, 1) ]} ∧
  (_print_view demo_game_fired).1 !! 0%nat = Some (Some KILL) ∧
  (_print_view demo_game_fired).1 !! 25%nat = Some (Some HIT) ∧
  (_print_view demo_game_fired).2 = demo_game_fired ∧
  (_print_view demo_game_fired).1 =
    map (λ coord,
           if decide (coord ∈ at_player (shots demo_game_fired) (current demo_game_fired))
           then Some (receive_fire (at_player (boards demo_game_fired)
                                      (other (current demo_game_fired))) coord).1
           else None)
        (view_cells demo_game_fired) ∧
  length (_print_view demo_game_fired).1 =
    (Z.to_nat (depth (boards demo_game_fired).1) *
     (Z.to_nat (rows (boards demo_game_fired).1) *
      Z.to_nat (cols (boards demo_game_fired).1)))%nat.
Proof.
  assert (game_inv demo_game_fired) as Hinv.
  { apply fire_game_inv, fire_game_inv, demo_game_inv. }
  split; [exact Hinv|].
  split; [vm_compute; reflexivity|].
  split; [vm_compute; reflexivity|].
  split; [vm_compute; reflexivity|].
  exact (_print_view_spec demo_game_fired Hinv).
Defined.

(** X16.  In such a match, a ['show'], a line that does not parse and a shot
    at a coordinate the player has already fired at leave the match as it
    is and lead to the next prompt, and ['quit'] ends the loop with the
    match as it is. *)
Theorem start_other_commands (self : Game) (rest : list Command) :
  game_inv self →
  start self (Show :: rest) = start self rest ∧
  start self (Malformed :: rest) = start self rest ∧
  start self (Quit :: rest) = (Aborted, self) ∧
  (∀ coord, coord ∈ at_player (shots self) (current self) →
            start self (Shot coord :: rest) = start self rest).
Proof.
  intros Hinv. split; [by rewrite start_turns|]. split; [by rewrite start_turns|].
  split; [by rewrite start_turns|].
  intros coord Hold. rewrite (start_turns self (Shot coord)) by done. simpl.
  unfold fire. by rewrite decide_True.
Qed.

Lemma start_other_commands_witness :
  game_inv (fire demo_game (0, 0, 0)).2 ∧
  (0, 0, 0) ∈ at_player (shots (fire demo_game (0, 0, 0)).2)
                (current (fire demo_game (0, 0, 0)).2) ∧
  start (fire demo_game (0, 0, 0)).2 (Show :: [Quit]) =
    start (fire demo_game (0, 0, 0)).2 [Quit] ∧
  start (fire demo_game (0, 0, 0)).2 (Malformed :: [Quit]) =
    start (fire demo_game (0, 0, 0)).2 [Quit] ∧
  start (fire demo_game (0, 0, 0)).2 (Quit :: [Quit]) = (Aborted, (fire demo_game (0, 0, 0)).2) ∧
  start (fire demo_game (0, 0, 0)).2 (Shot (0, 0, 0) :: [Quit]) =
    start (fire demo_game (0, 0, 0)).2 [Quit].
Proof.
  pose proof (fire_game_inv demo_game (0, 0, 0) demo_game_inv) as Hinv.
  assert ((0, 0, 0) ∈ at_player (shots (fire demo_game (0, 0, 0)).2)
                        (current (fire demo_game (0, 0, 0)).2)) as Hin.
  { apply (bool_decide_unpack _). vm_compute. exact I. }
  destruct (start_other_commands (fire demo_game (0, 0, 0)).2 [Quit] Hinv)
    as (H1 & H2 & H3 & H4).
  split; [exact Hinv|]. split; [exact Hin|]. split; [exact H1|]. split; [exact H2|].
  split; [exact H3 | exact (H4 _ Hin)].
Defined.

(** X17.  When the loop of [start] ends with a winner, the winner is the
    player who fired last, and on the opponent's board the General has been
    hit or [all_non_general_sunk] holds. *)
Theorem start_winner_sound (self : Game) (inputs : list Command) (w : Player) (self' : Game) :
  game_inv self →
  start self inputs = (Won w, self') →
  current self' = w ∧
  (general_hit (at_player (boards self') (other w)) ∨
   all_non_general_sunk (at_player (boards self') (other w)) = true).
Proof.
  revert self. induction inputs as [|cmd rest IH]; intros self Hinv.
  { simpl. done. }
  rewrite start_turns by done.
  pose proof (turn_game_inv self cmd Hinv) as Hinv2.
  destruct (turn self cmd) as [[| |w'] self2] eqn:Hturn; simpl in Hinv2.
  - by apply IH.
  - done.
  - intros [= -> ->]. destruct cmd; simpl in Hturn; try done.
    pose proof (fire_Won self coord w) as Hw. rewrite Hturn in Hw. simpl in Hw.
    by destruct (Hw eq_refl) as (_ & ? & ?).
Qed.

Lemma start_winner_sound_witness :
  game_inv demo_game ∧
  (start demo_game [Shot (0, 0, 0); Show; Shot (4, 4, 0)]).1 = Won Player0 ∧
  current (start demo_game [Shot (0, 0, 0); Show; Shot (4, 4, 0)]).2 = Player0 ∧
  (general_hit (at_player (boards (start demo_game [Shot (0, 0, 0); Show; Shot (4, 4, 0)]).2)
                  (other Player0)) ∨
   all_non_general_sunk
     (at_player (boards (start demo_game [Shot (0, 0, 0); Show; Shot (4, 4, 0)]).2)
        (other Player0)) = true).
Proof.
  assert (start demo_game [Shot (0, 0, 0); Show; Shot (4, 4, 0)] =
          (Won Player0, (start demo_game [Shot (0, 0, 0); Show; Shot (4, 4, 0)]).2)) as Hrun
    by (vm_compute; reflexivity).
  split; [exact demo_game_inv|]. split; [by rewrite Hrun|].
  exact (start_winner_sound demo_game _ Player0 _ demo_game_inv Hrun).
Defined.

(** X18.  Through the whole loop of [start], no shot of either player is
    forgotten and both boards keep their dimensions, their index and their
    vessels, whose hits only grow. *)
Theorem start_monotone (self : Game) (inputs : list Command) (pl : Player) :
  game_inv self →
  at_player (shots self) pl ⊆ at_player (shots (start self inputs).2) pl ∧
  evolves (at_player (boards self) pl) (at_player (boards (start self inputs).2) pl).
Proof.
  revert self. induction inputs as [|cmd rest IH]; intros self Hinv.
  { simpl. rewrite _print_view_unchanged by done. split; [done | apply evolves_refl]. }
  rewrite start_turns by done.
  pose proof (turn_game_inv self cmd Hinv) as Hinv2.
  assert (at_player (shots self) pl ⊆ at_player (shots (turn self cmd).2) pl ∧
          evolves (at_player (boards self) pl) (at_player (boards (turn self cmd).2) pl))
    as [Hs He].
  { destruct cmd; simpl; [split; [done | apply evolves_refl].. | apply fire_monotone]. }
  destruct (turn self cmd) as [[| |w'] self2] eqn:Hturn; simpl in *; [|done..].
  destruct (IH self2 Hinv2) as [Hs2 He2].
  split; [set_solver | by eapply evolves_trans].
Qed.

Lemma start_monotone_witness :
  game_inv demo_game ∧
  at_player (shots demo_game) Player0 ⊆
    at_player (shots (start demo_game [Shot (1, 1, 1); Shot (0, 0, 0)]).2) Player0 ∧
  evolves (at_player (boards demo_game) Player0)
    (at_player (boards (start demo_game [Shot (1, 1, 1); Shot (0, 0, 0)]).2) Player0).
Proof.
  split; [exact demo_game_inv|].
  exact (start_monotone demo_game [Shot (1, 1, 1); Shot (0, 0, 0)] Player0 demo_game_inv).
Defined.

(** * The reveal of a board *)

Section reveal.
Implicit Types (b : Board3D) (g : Random) (counts items : list (PieceType * Z)).

Lemma elem_of_range n x : x ∈ range n ↔ 0 ≤ x < n.
Proof.
  unfold range. change (map ?f ?l) with (f <$> l). rewrite list_elem_of_fmap. split.
  - intros (k & -> & Hk). apply elem_of_seq in Hk. lia.
  - intros Hx. exists (Z.to_nat x). split; [lia|]. apply elem_of_seq. lia.
Qed.

Lemma NoDup_range n : NoDup (range n).
Proof.
  unfold range. change (map ?f ?l) with (f <$> l).
  apply NoDup_fmap_2; [apply _ | apply NoDup_seq].
Qed.

Lemma elem_of_grid_cells d rs cs x y z :
  (x, y, z) ∈ grid_cells d rs cs ↔ 0 ≤ x < cs ∧ 0 ≤ y < rs ∧ 0 ≤ z < d.
Proof.
  unfold grid_cells. rewrite list_elem_of_bind. split.
  - intros (z' & (y' & (x' & Hc & Hx)%list_elem_of_bind & Hy)%list_elem_of_bind & Hz).
    apply list_elem_of_singleton in Hc as [= -> -> ->].
    by rewrite !elem_of_range in *.
  - intros (Hx & Hy & Hz). exists z. rewrite elem_of_range. split; [|done].
    apply list_elem_of_bind. exists y. rewrite elem_of_range. split; [|done].
    apply list_elem_of_bind. exists x. rewrite elem_of_range. split; [|done].
    by apply list_elem_of_singleton.
Qed.

Lemma NoDup_grid_cells d rs cs : NoDup (grid_cells d rs cs).
Proof.
  unfold grid_cells. apply NoDup_bind; [| |apply NoDup_range].
  - intros z1 z2 c _ _ (y1 & (x1 & Hc1 & _)%list_elem_of_bind & _)%list_elem_of_bind
      (y2 & (x2 & Hc2 & _)%list_elem_of_bind & _)%list_elem_of_bind.
    apply list_elem_of_singleton in Hc1, Hc2. congruence.
  - intros z _. apply NoDup_bind; [| |apply NoDup_range].
    + intros y1 y2 c _ _ (x1 & Hc1 & _)%list_elem_of_bind (x2 & Hc2 & _)%list_elem_of_bind.
      apply list_elem_of_singleton in Hc1, Hc2. congruence.
    + intros y _. apply NoDup_bind; [| |apply NoDup_range].
      * intros x1 x2 c _ _ Hc1 Hc2. apply list_elem_of_singleton in Hc1, Hc2. congruence.
      * intros x _. apply NoDup_singleton.
Qed.

(** The lines of a reveal, put end to end, are the marks of [grid_cells]. *)
Lemma concat_grid {A} (f : Coordinate → A) (zs ys xs : list Z) :
  concat (concat (map (λ z, map (λ y, map (λ x, f (x, y, z)) xs) ys) zs)) =
  map f (z ← zs; y ← ys; x ← xs; [(x, y, z)]).
Proof.
  assert (∀ y z, map (λ x, f (x, y, z)) xs = map f (x ← xs; [(x, y, z)])) as Hrow.
  { intros y z. induction xs as [|x xs IH]; [done|].
    rewrite bind_cons. simpl. by rewrite IH. }
  assert (∀ z, concat (map (λ y, map (λ x, f (x, y, z)) xs) ys) =
               map f (y ← ys; x ← xs; [(x, y, z)])) as Hlevel.
  { intros z. induction ys as [|y ys IH]; [done|].
    rewrite bind_cons, map_app. simpl. by rewrite IH, Hrow. }
  induction zs as [|z zs IH]; [done|].
  rewrite bind_cons, map_app. simpl. by rewrite concat_app, IH, Hlevel.
Qed.

Lemma length_filter_map_true {A} (f : A → bool) (l : list A) :
  length (filter (λ m, m = true) (map f l)) = length (filter (λ a, f a = true) l).
Proof.
  induction l as [|a l IH]; [done|]. simpl.
  rewrite !filter_cons. destruct (decide (f a = true)); simpl; by rewrite IH.
Qed.

(** The marks of a reveal count the indexed cells that lie on the board. *)
Lemma marks_reveal self pl :
  marks (_reveal_board self pl) =
  length (filter (λ c, is_Some (occupied (at_player (boards self) pl) !! c))
                 (grid_cells (depth (at_player (boards self) pl))
                             (rows (at_player (boards self) pl))
                             (cols (at_player (boards self) pl)))).
Proof.
  unfold marks, _reveal_board. cbv zeta.
  rewrite (concat_grid (λ c, bool_decide (is_Some (occupied (at_player (boards self) pl) !! c)))).
  rewrite length_filter_map_true. unfold grid_cells. f_equal.
  apply list_filter_iff. intros c. by rewrite bool_decide_eq_true.
Qed.

Lemma dom_register_coords (i : nat) (cs : gset Coordinate) (occ : gmap Coordinate nat) :
  dom (register_coords i cs occ) = cs ∪ dom occ.
Proof.
  apply set_eq. intros c. rewrite elem_of_union, !elem_of_dom, lookup_register_coords.
  case_decide; [|tauto]. split; [by left | by eexists].
Qed.

(** Every property that holds of the board before [place_all] and that
    committing a vessel on free cells keeps, holds after it, however the
    pass ends. *)
Lemma place_all_preserves (P : Board3D → Prop) counts b g r b' g' :
  (∀ ptype b0 cs z, P b0 → placed_by ptype b0 cs z → P (commit ptype cs b0)) →
  place_all counts (b, g) = (r, (b', g')) → P b → P b'.
Proof.
  intros Hcommit.
  assert (∀ ptype b g r b' g',
            _place_random ptype (b, g) = (r, (b', g')) → P b → P b') as Hone.
  { clear b g r b' g'. intros ptype b g r b' g' H Hb.
    apply place_attempts_cases in H as [(_ & cs & z & Hby & ->) | [[_ ->] | [_ ->]]];
      [by eapply Hcommit | done..]. }
  assert (∀ n ptype b g r b' g',
            place_times n ptype (b, g) = (r, (b', g')) → P b → P b') as Htimes.
  { clear b g r b' g'. induction n as [|n IH]; intros ptype b g r b' g'; simpl.
    - unfold ret. by intros [= <- <- <-].
    - unfold bind. destruct (_place_random ptype (b, g)) as [[e | []] [b1 g1]] eqn:H1.
      + intros [= <- <- <-]. by eapply Hone.
      + intros H2 Hb. eapply IH; [exact H2|]. by eapply Hone. }
  assert (∀ items b g r b' g',
            place_items items (b, g) = (r, (b', g')) → P b → P b') as Hitems.
  { clear b g r b' g'. induction items as [|[ptype num] items IH]; intros b g r b' g'; simpl.
    - unfold ret. by intros [= <- <- <-].
    - unfold bind.
      destruct (place_times (Z.to_nat num) ptype (b, g)) as [[e | []] [b1 g1]] eqn:H1.
      + intros [= <- <- <-]. by eapply Htimes.
      + intros H2 Hb. eapply IH; [exact H2|]. by eapply Htimes. }
  rewrite place_all_unfold. case_decide; [by intros [= <- <- <-]|].
  destruct (check_counts b counts); [by intros [= <- <- <-]|]. apply Hitems.
Qed.

(** The index holds as many coordinates as the vessels have cells. *)
Lemma place_all_index_size counts d rs cs g r b' g' :
  place_all counts (Board3D_init d rs cs, g) = (r, (b', g')) →
  size (dom (occupied b')) = sum_list (map (λ p, size (coords p)) (pieces b')).
Proof.
  intros Hrun.
  eapply (place_all_preserves
            (λ b, size (dom (occupied b)) = sum_list (map (λ p, size (coords p)) (pieces b))));
    [|exact Hrun|].
  - intros ptype b0 cs0 z IH Hby. simpl.
    destruct Hby as (? & ? & ? & ? & ? & _ & _ & _ & _ & _ & _ & _ & Hfree).
    rewrite dom_register_coords, size_union, IH.
    + rewrite map_app, sum_list_with_app. simpl. lia.
    + apply elem_of_disjoint. intros c Hc [v Hv]%elem_of_dom.
      rewrite (Hfree c Hc) in Hv. done.
  - simpl. by rewrite dom_empty_L, size_empty.
Qed.

Lemma placement_inv_sizes b :
  placement_inv b →
  sum_list (map (λ p, size (coords p)) (pieces b)) =
  sum_list (map shape_size (map piece_type (pieces b))).
Proof.
  intros [_ Hwp]. induction (pieces b) as [|p ps IH]; [done|]. simpl.
  rewrite IH by (intros q Hq; apply Hwp; by right). f_equal.
  destruct (Hwp p) as (shape & x0 & y0 & z & Hs & -> & _); [left|].
  rewrite size_absolute_coords. by apply shape_facts.
Qed.

End reveal.

(** X19.  After a successful placement on a board of three layers or more,
    and after any shots, the reveal of the board shows exactly as many ['#']
    as the fleet has cells: 3 for every Submarine, 4 for every Destroyer, 6
    for every Jet and 1 for the General. *)
Theorem reveal_marks_fleet (d rs cs : Z) (counts : list (PieceType * Z)) (g : Random)
    (b : Board3D) (g' : Random) (fired : list Coordinate) (self : Game) (pl : Player) :
  place_all counts (Board3D_init d rs cs, g) = (inr (), (b, g')) →
  3 ≤ d →
  at_player (boards self) pl = fire_all b fired →
  marks (_reveal_board self pl) = sum_list (map shape_size (fleet counts)).
Proof.
  intros Hrun Hd Hb. rewrite marks_reveal, Hb.
  destruct (fire_all_evolves b fired) as ((-> & -> & ->) & -> & _).
  pose proof (place_all_index_size _ _ _ _ _ _ _ _ Hrun) as Hsize.
  destruct (place_all_success_fleet _ _ _ _ _ _ _ Hrun) as (Hfleet & _ & Hdims).
  pose proof Hrun as [Hinv _]%place_all_inv; [|apply placement_inv_init].
  rewrite (placement_inv_sizes b Hinv), Hfleet in Hsize. rewrite <- Hsize.
  injection Hdims as Hdb Hrb Hcb.
  rewrite <- (size_list_to_set (C := gset Coordinate));
    [|apply NoDup_filter, NoDup_grid_cells].
  f_equal. apply set_eq. intros [[x y] z].
  rewrite elem_of_list_to_set, list_elem_of_filter, elem_of_dom, elem_of_grid_cells.
  split; [tauto|]. intros [i Hi]. split; [by eexists|].
  destruct Hinv as [[Hocc _] Hwp]. apply Hocc in Hi as (p & Hp & Hc).
  apply list_elem_of_lookup_2, Hwp in Hp.
  destruct (well_placed_bounds _ _ _ _ _ _ _ Hp Hc) as (? & ? & ? & Hz).
  split; [done|]. split; [done|]. split; [done | lia].
Qed.

Lemma reveal_marks_fleet_witness :
  3 ≤ 3 ∧
  marks (_reveal_board (fire demo_game (0, 0, 0)).2 Player1) =
  sum_list (map shape_size (fleet demo_counts)).
Proof.
  split; [lia|].
  apply (reveal_marks_fleet 3 5 5 demo_counts _ demo_board _ [(0, 0, 0)] _ Player1 demo_run_ok).
  - lia.
  - vm_compute. reflexivity.
Defined.

(** * The configuration dialogue *)

Section session.
Implicit Types (b : Board3D) (g : Random) (session : Session) (line : Line)
  (counts : list (PieceType * Z)).

Lemma evolves_types b b' :
  evolves b b' → map piece_type (pieces b') = map piece_type (pieces b).
Proof.
  intros Hev. pose proof Hev as (_ & _ & Hlen & _).
  apply list_eq. intros i. change (map ?f ?l) with (f <$> l). rewrite !list_lookup_fmap.
  destruct (pieces b' !! i) as [p'|] eqn:Hp'.
  - destruct (evolves_lookup_back _ _ _ _ Hev Hp') as (p & -> & Ht & _). simpl. by f_equal.
  - apply lookup_ge_None in Hp'. rewrite Hlen in Hp'.
    apply lookup_ge_None in Hp'. by rewrite Hp'.
Qed.

Lemma started_board_evolves b b' : evolves b b' → started_board b → started_board b'.
Proof.
  intros Hev (Hd & Hmin & Hmax & Hbounds & Hfleet).
  pose proof Hev as ((Hd' & Hr' & Hc') & _).
  split; [congruence|]. rewrite Hr', Hc'. split; [done|]. split; [done|]. split.
  - intros p' x y z [i Hp']%list_elem_of_lookup Hc.
    destruct (evolves_lookup_back _ _ _ _ Hev Hp') as (p & Hp & _ & Hcs & _).
    apply (Hbounds p); [by eapply list_elem_of_lookup_2 | by rewrite <- Hcs].
  - by rewrite (evolves_types _ _ Hev).
Qed.

Lemma placed_started_board rs cs subs dests jets g b g' :
  place_all [(SUBMARINE, subs); (DESTROYER, dests); (JET, jets); (GENERAL, 1)]
            (Board3D_init 3 rs cs, g) = (inr (), (b, g')) →
  3 ≤ rs `min` cs → 4 ≤ rs `max` cs →
  started_board b.
Proof.
  intros Hrun Hmin Hmax.
  destruct (place_all_success_fleet _ _ _ _ _ _ _ Hrun) as (Hfleet & _ & [= Hd Hr Hc]).
  pose proof Hrun as [[_ Hwp] _]%place_all_inv; [|apply placement_inv_init].
  split; [done|]. rewrite Hr, Hc. split; [done|]. split; [done|]. split.
  - intros p x y z Hp Hin. apply Hwp in Hp. rewrite Hd, Hr, Hc in Hp.
    destruct (well_placed_bounds _ _ _ _ _ _ _ Hp Hin) as (? & ? & ? & Hz).
    split; [done|]. split; [done|]. split; [done | by apply Hz].
  - exists (Z.to_nat subs), (Z.to_nat dests), (Z.to_nat jets).
    rewrite Hfleet. unfold fleet. cbn [mbind list_bind]. cbn. by rewrite app_nil_r.
Qed.

(** The errors of [place_all] on a request for exactly one General. *)
Lemma place_all_error_kind counts b g e s' :
  counts_get counts GENERAL 0 = 1 →
  place_all counts (b, g) = (inl e, s') →
  (∃ ptype num max_count, e = CapacityExceeded ptype num max_count) ∨
  (∃ ptype, e = PlacementExhausted ptype) ∨
  e = ValueError EmptyRange.
Proof.
  intros Hg. rewrite place_all_unfold. rewrite decide_False by lia.
  destruct (check_counts b counts) as [e' | []] eqn:Hcheck.
  - intros [= <- <-]. apply check_counts_inl in Hcheck as (t & n & _ & _ & _ & ->).
    left. eauto.
  - intros [-> | (t & n & _ & _ & ->)]%place_items_error; [by right; right|].
    right; left. eauto.
Qed.

Lemma turn_monotone (self : Game) (cmd : Command) pl :
  evolves (at_player (boards self) pl) (at_player (boards (turn self cmd).2) pl).
Proof. destruct cmd; simpl; [apply evolves_refl.. | apply fire_monotone]. Qed.

Lemma step_session_inv session g line :
  session_inv session → session_inv (step (session, g) line).1.
Proof.
  intros Hinv. destruct session as [|rows|rows cols counts ptype todo|rows cols counts|game|how];
    cbn [step].
  - by destruct (as_int line).
  - destruct (as_int line) as [cols|]; [|done].
    case_bool_decide as H1; [done|]. case_bool_decide as H2; [done|].
    simpl. split; [lia|]. split; [lia|]. split; [by constructor | done].
  - destruct (as_int line) as [num|]; [|done].
    case_bool_decide as Hneg; [done|].
    destruct Hinv as (Hmin & Hmax & Hnn & Hkeys).
    destruct todo as [|next todo']; simpl.
    + split; [done|]. split; [done|].
      destruct counts as [|[t1 n1] [|[t2 n2] [|[t3 n3] counts]]]; simpl in Hkeys;
        try (by destruct counts); try done.
      injection Hkeys as -> -> ->.
      apply Forall_cons in Hnn as [? Hnn]. apply Forall_cons in Hnn as [? _].
      exists n1, n2, num. repeat (split; [lia|]). done.
    + split; [done|]. split; [done|]. split.
      * apply Forall_app. split; [done|]. constructor; [lia | constructor].
      * rewrite map_app. simpl. by rewrite <- app_assoc.
  - pose proof Hinv as Hkeep.
    destruct Hinv as (Hmin & Hmax & subs & dests & jets & Hs & Hd & Hj & ->).
    destruct line; try exact Hkeep; try done; cbn [session_inv fst].
    destruct (Game_init 3 rows cols _ g) as [[e | game] g'] eqn:Hinit; cbn [fst].
    + unfold Game_init in Hinit.
      destruct (place_all _ (Board3D_init 3 rows cols, g)) as [[e0 | []] [b0 g1]] eqn:H0.
      * injection Hinit as <- <-. by eapply place_all_error_kind; [|exact H0].
      * destruct (place_all _ (Board3D_init 3 rows cols, g1)) as [[e1 | []] [b1 g2]] eqn:H1;
          [|done].
        injection Hinit as <- <-. by eapply place_all_error_kind; [|exact H1].
    + pose proof Hinit as (Hginv & _)%Game_init_inv.
      rewrite _print_view_unchanged by done. split; [done|].
      unfold Game_init in Hinit.
      destruct (place_all _ (Board3D_init 3 rows cols, g)) as [[e0 | []] [b0 g1]] eqn:H0;
        [done|].
      destruct (place_all _ (Board3D_init 3 rows cols, g1)) as [[e1 | []] [b1 g2]] eqn:H1;
        [done|].
      injection Hinit as <- <-. intros pl. destruct pl; simpl.
      * by eapply placed_started_board.
      * by eapply placed_started_board.
  - destruct Hinv as [Hginv Hboards].
    pose proof (turn_game_inv game (as_command line) Hginv) as Hginv2.
    assert (∀ pl, started_board (at_player (boards (turn game (as_command line)).2) pl))
      as Hboards2.
    { intros pl. eapply started_board_evolves; [apply turn_monotone | apply Hboards]. }
    destruct (turn game (as_command line)) as [[| |w] game2]; simpl in *.
    + by rewrite _print_view_unchanged.
    + done.
    + done.
  - done.
Qed.

Lemma foldl_step_session_inv lines session g :
  session_inv session → session_inv (foldl step (session, g) lines).1.
Proof.
  revert session g. induction lines as [|line lines IH]; intros session g Hinv; [done|].
  cbn [foldl]. pose proof (step_session_inv session g line Hinv) as Hstep.
  destruct (step (session, g) line) as [session' g']. apply IH. exact Hstep.
Qed.

(** Once the match is on, the dialogue is the loop of [start] on the same
    lines. *)
Lemma foldl_step_playing lines (game : Game) g :
  foldl step (Playing (_print_view game).2, g) lines =
  (match start game (map as_command lines) with
   | (InProgress, game') => Playing game'
   | (status, game') => Returned (GameReturned status game')
   end, g).
Proof.
  revert game. induction lines as [|line lines IH]; intros game; [done|].
  cbn [foldl map start step].
  destruct (turn (_print_view game).2 (as_command line)) as [[| |w] game2]; [apply IH | ..].
  - clear IH. by induction lines.
  - clear IH. by induction lines.
Qed.

(** The five lines of a whole configuration lead to the last prompt of the
    set-up. *)
Lemma run_game_configured rows cols subs dests jets g :
  3 ≤ rows `min` cols → 4 ≤ rows `max` cols → 0 ≤ subs → 0 ≤ dests → 0 ≤ jets →
  run_game [IntLine rows; IntLine cols; IntLine subs; IntLine dests; IntLine jets] g =
  (AskCommand rows cols
     [(SUBMARINE, subs); (DESTROYER, dests); (JET, jets); (GENERAL, 1)], g).
Proof.
  intros Hmin Hmax Hs Hd Hj. unfold run_game. cbn [foldl step as_int].
  rewrite (bool_decide_eq_false_2 (3 < 1 ∨ _ ∨ _)) by lia.
  rewrite (bool_decide_eq_false_2 (_ < 3 ∨ _)) by lia.
  cbn [foldl step as_int]. rewrite (bool_decide_eq_false_2 (subs < 0)) by lia.
  cbn [foldl step as_int app]. rewrite (bool_decide_eq_false_2 (dests < 0)) by lia.
  cbn [foldl step as_int app]. rewrite (bool_decide_eq_false_2 (jets < 0)) by lia.
  done.
Qed.

End session.

(** X20.  Whatever lines [run_game] reads: a match it starts, and a match
    it has played, has both boards of three layers and of a size the
    dialogue accepts, with every vessel within its board and a fleet of
    Submarines, Destroyers, Jets and one General; and when [Game] raises,
    which [run_game] does not catch, the exception is "Cannot place ...",
    the [RuntimeError] of [_place_random] or the [ValueError] of an empty
    range, never "Exactly one General required". *)
Theorem run_game_sessions (lines : list Line) (g : Random) :
  match (run_game lines g).1 with
  | Playing game | Returned (GameReturned _ game) =>
      game_inv game ∧ ∀ pl, started_board (at_player (boards game) pl)
  | Returned (Uncaught e) =>
      (∃ ptype num max_count, e = CapacityExceeded ptype num max_count) ∨
      (∃ ptype, e = PlacementExhausted ptype) ∨
      e = ValueError EmptyRange
  | _ => True
  end.
Proof.
  pose proof (foldl_step_session_inv lines AskRows g I) as Hinv.
  fold (run_game lines g) in Hinv.
  by destruct (run_game lines g).1 as [| | | | |[| |]].
Qed.

(** X21.  A configuration of an accepted size that asks for more vessels of
    a type than the packing bound allows is not refused at its prompt:
    ['start'] then ends the program with the uncaught "Cannot place ..." of
    [place_all], before any random draw. *)
Theorem run_game_capacity_uncaught (rows cols subs dests jets : Z) (g : Random) :
  3 ≤ rows `min` cols → 4 ≤ rows `max` cols → 0 ≤ subs → 0 ≤ dests → 0 ≤ jets →
  capacity rows cols SUBMARINE < subs ∨ capacity rows cols DESTROYER < dests ∨
  capacity rows cols JET < jets →
  ∃ ptype num,
    run_game [IntLine rows; IntLine cols; IntLine subs; IntLine dests; IntLine jets;
              StartLine] g =
    (Returned (Uncaught (CapacityExceeded ptype num (capacity rows cols ptype))), g).
Proof.
  intros Hmin Hmax Hs Hd Hj Hover.
  pose proof (run_game_configured rows cols subs dests jets g Hmin Hmax Hs Hd Hj) as Hconf.
  unfold run_game in *.
  change [IntLine rows; IntLine cols; IntLine subs; IntLine dests; IntLine jets; StartLine]
    with ([IntLine rows; IntLine cols; IntLine subs; IntLine dests; IntLine jets] ++ [StartLine]).
  rewrite foldl_app, Hconf. cbn [foldl step].
  set (counts := [(SUBMARINE, subs); (DESTROYER, dests); (JET, jets); (GENERAL, 1)]).
  destruct (check_counts (Board3D_init 3 rows cols) counts) as [e | []] eqn:Hcheck.
  - pose proof Hcheck as (t & n & _ & _ & _ & He)%check_counts_inl.
    exists t, n. unfold Game_init. rewrite place_all_unfold, Hcheck, He.
    by rewrite decide_False by (by intros ?).
  - exfalso. rewrite check_counts_inr in Hcheck. simpl in Hcheck.
    destruct Hover as [H | [H | H]].
    + assert (subs ≤ capacity rows cols SUBMARINE)
        by (apply Hcheck; [set_solver | done]). lia.
    + assert (dests ≤ capacity rows cols DESTROYER)
        by (apply Hcheck; [set_solver | done]). lia.
    + assert (jets ≤ capacity rows cols JET)
        by (apply Hcheck; [set_solver | done]). lia.
Qed.

Lemma run_game_capacity_uncaught_witness :
  ∃ ptype num,
    run_game [IntLine 5; IntLine 5; IntLine 0; IntLine 10; IntLine 0; StartLine] (tape []) =
    (Returned (Uncaught (CapacityExceeded ptype num (capacity 5 5 ptype))), tape []).
Proof.
  apply (run_game_capacity_uncaught 5 5 0 10 0 (tape [])); [lia.. |].
  right; left. vm_compute. reflexivity.
Defined.
